(** * mikrofuzz: the fuzzy matcher of [src/index.ts] and the normalizer of
    [src/normalize.ts], embedded as Rocq functions.

    Data model.
    - A JavaScript string is its sequence of UTF-16 code units, [list N];
      [length] and every index of the source count code units.
    - Indices are [Z]: the source computes [-1], [-2], [idx - 1] and relies on
      an out-of-range index reading [undefined], which is [None] here.
    - Scores are JavaScript numbers.  Every score the source builds is a sum
      of decimal constants; the sums are kept exact, in [Qc].  Rounding of
      IEEE doubles is not part of the model.
    - [Set<string>] is [gset (list N)].
    - [toLowerCase] and [normalize("NFD")] belong to the JavaScript runtime,
      not to this repository: they are the two operations of the [Unicode]
      class.  A small instance, [ucd], implements them on a fragment of the
      Unicode character database so that scenarios can be evaluated. *)

From Stdlib Require Import ZArith QArith Qcanon String Ascii.
From stdpp Require Import base numbers list gmap sorting.

Open Scope Z_scope.

(** ** JavaScript strings *)

Module JS.

(** An ASCII literal as a JavaScript string. *)
Definition lit (s : string) : list N := N_of_ascii <$> list_ascii_of_string s.

Definition len (s : list N) : Z := Z.of_nat (length s).

(** [s[i]]: [undefined] outside [0 .. length-1]. *)
Definition at_ (s : list N) (i : Z) : option N :=
  if bool_decide (0 ≤ i) then s !! Z.to_nat i else None.

(** [ToString] of a string-or-undefined argument. *)
Definition toString (c : option N) : list N :=
  match c with
  | Some c => [c]
  | None => lit "undefined"
  end.

(** [s.startsWith(q)] *)
Definition startsWith (s q : list N) : bool := bool_decide (q `prefix_of` s).

(** The scan of [indexOf]: the first position, counted from [k], at which
    [pat] is a prefix of what is left of the string. *)
Fixpoint indexOfFrom (pat s : list N) (k : Z) : Z :=
  if bool_decide (pat `prefix_of` s) then k
  else match s with
       | [] => -1
       | _ :: s' => indexOfFrom pat s' (k + 1)
       end.

(** [s.indexOf(pat, position)]: [position] is clamped to [0 .. length]. *)
Definition indexOf (s pat : list N) (position : Z) : Z :=
  let start := Z.min (Z.max position 0) (len s) in
  indexOfFrom pat (drop (Z.to_nat start) s) start.

(** [s.slice(from, to)]: a negative bound counts from the end, both bounds
    are clamped to [0 .. length]. *)
Definition slice (s : list N) (from to : Z) : list N :=
  let rel i := if bool_decide (i < 0) then Z.max (len s + i) 0 else Z.min i (len s) in
  take (Z.to_nat (rel to - rel from)) (drop (Z.to_nat (rel from)) s).

(** [s.split(sep)] for a one-unit separator. *)
Fixpoint split (sep : N) (s : list N) : list (list N) :=
  match s with
  | [] => [[]]
  | c :: s' =>
      if bool_decide (c = sep) then [] :: split sep s'
      else match split sep s' with
           | w :: ws => (c :: w) :: ws
           | [] => [[c]]
           end
  end.

(** WhiteSpace and LineTerminator code units of ECMAScript, as [trim] uses. *)
Definition isWhiteSpace (c : N) : bool :=
  bool_decide (c ∈ [0x9; 0xA; 0xB; 0xC; 0xD; 0x20; 0xA0; 0x1680; 0x2028;
                    0x2029; 0x202F; 0x205F; 0x3000; 0xFEFF]%N)
  || (0x2000 <=? c)%N && (c <=? 0x200A)%N.

Fixpoint trimStart (s : list N) : list N :=
  match s with
  | c :: s' => if isWhiteSpace c then trimStart s' else s
  | [] => []
  end.

Definition trimEnd (s : list N) : list N := reverse (trimStart (reverse s)).

(** [s.trim()] *)
Definition trim (s : list N) : list N := trimEnd (trimStart s).

(** [s.replace(/c/g, by)] for a one-unit pattern and replacement. *)
Definition replaceAll (c by_ : N) (s : list N) : list N :=
  (λ x, if bool_decide (x = c) then by_ else x) <$> s.

(** [s.replace(/[lo-hi]/g, empty)]: every unit in the range is removed. *)
Definition removeRange (lo hi : N) (s : list N) : list N :=
  filter (λ x, ¬ (lo ≤ x ∧ x ≤ hi)%N) s.

(** [a.sort(cmp)].  [positive x y] is [cmp(x, y) > 0].  The sort of the
    runtime is stable; on a comparator that is a total preorder every
    stable sort gives the same array, here by insertion. *)
Fixpoint insertBy {A} (positive : A → A → bool) (x : A) (l : list A) : list A :=
  match l with
  | [] => [x]
  | y :: l' => if positive x y then y :: insertBy positive x l' else x :: l
  end.

Definition sort {A} (positive : A → A → bool) (l : list A) : list A :=
  foldr (insertBy positive) [] l.

End JS.

Notation "'js' s" := (JS.lit s%string) (at level 1, s at level 0, only parsing).

(** ** Numbers with one decimal *)

(** [tenths n] is the number [n / 10]: [tenths 2] is [0.2]. *)
Definition tenths (n : Z) : Qc := Q2Qc (n # 10).

(** ** [types.ts] *)

(** [Range], [HighlightRanges] and [FuzzyMatches]: inclusive index pairs,
    lists of them, and one optional list per text field. *)
Abbreviation Range := (Z * Z)%type (only parsing).
Abbreviation HighlightRanges := (list (Z * Z)) (only parsing).
Abbreviation FuzzyMatches := (list (option (list (Z * Z)))) (only parsing).

Record FuzzyResult (T : Type) : Type := mkResult {
  item : T;
  score : Qc;
  matches : FuzzyMatches;
}.
Arguments mkResult {T} _ _ _.
Arguments item {T} _.
Arguments score {T} _.
Arguments matches {T} _.

Inductive FuzzySearchStrategy : Type := off | smart | aggressive.

(** ** [index.ts]: comparators and the boundary classifier *)

Definition sortByScore {T} (a b : FuzzyResult T) : Qc := (score a - score b)%Qc.
Definition sortRangeTuple (a b : Range) : Z := a.1 - b.1.

(** The literal of line 35, unit by unit: two spaces, square and round
    brackets, hyphen, en dash, em dash, apostrophe and three double quotes. *)
Definition validWordBoundaries : gset N :=
  list_to_set [0x20; 0x20; 0x5B; 0x5D; 0x28; 0x29; 0x2D; 0x2013; 0x2014;
               0x27; 0x22; 0x22; 0x22]%N.

(** [validWordBoundaries.has(char)]; [undefined] is not a member. *)
Definition isValidWordBoundary (char : option N) : bool :=
  match char with
  | Some c => bool_decide (c ∈ validWordBoundaries)
  | None => false
  end.

(** ** The consecutive-run scorer *)

Definition space : N := 0x20%N.

(** One turn of the loop of [scoreConsecutiveLetters]. *)
Definition scoreChunk (normalizedItem : list N) (score : Qc) (chunk : Range) : Qc :=
  let '(firstIdx, lastIdx) := chunk in
  let chunkLength := lastIdx - firstIdx + 1 in
  let isStartOfWord :=
    bool_decide (firstIdx = 0)
    || bool_decide (JS.at_ normalizedItem (firstIdx - 1) = Some space) in
  let isEndOfWord :=
    bool_decide (lastIdx = JS.len normalizedItem - 1)
    || bool_decide (JS.at_ normalizedItem (lastIdx + 1) = Some space) in
  if isStartOfWord && isEndOfWord then (score + tenths 2)%Qc
  else if isStartOfWord then (score + tenths 4)%Qc
  else if bool_decide (3 ≤ chunkLength) then (score + tenths 8)%Qc
  else (score + tenths 16)%Qc.

Definition scoreConsecutiveLetters (indices : HighlightRanges) (normalizedItem : list N)
  : Qc * HighlightRanges :=
  (fold_left (scoreChunk normalizedItem) indices (tenths 20), indices).

(** ** The aggressive subsequence matcher *)

(** The [for] loop of [aggressiveFuzzyMatch]; [n] counts the turns that are
    left, [normalizedItemLen - itemIdx].  [None] is [return null]. *)
Fixpoint aggressiveLoop (n : nat) (normalizedItem normalizedQuery : list N)
    (itemIdx queryIdx : Z) (indices : HighlightRanges) (chunkFirstIdx chunkLastIdx : Z)
  : option (Qc * HighlightRanges) :=
  match n with
  | O => None
  | S n' =>
      if bool_decide (JS.at_ normalizedItem itemIdx = JS.at_ normalizedQuery queryIdx) then
        let indices1 :=
          if bool_decide (itemIdx ≠ chunkLastIdx + 1) then
            if bool_decide (0 ≤ chunkFirstIdx)
            then indices ++ [(chunkFirstIdx, chunkLastIdx)] else indices
          else indices in
        let chunkFirstIdx1 :=
          if bool_decide (itemIdx ≠ chunkLastIdx + 1) then itemIdx else chunkFirstIdx in
        let chunkLastIdx1 := itemIdx in
        let queryIdx1 := queryIdx + 1 in
        if bool_decide (queryIdx1 = JS.len normalizedQuery) then
          Some (scoreConsecutiveLetters
                  (indices1 ++ [(chunkFirstIdx1, chunkLastIdx1)]) normalizedItem)
        else
          aggressiveLoop n' normalizedItem normalizedQuery (itemIdx + 1) queryIdx1
                         indices1 chunkFirstIdx1 chunkLastIdx1
      else
        aggressiveLoop n' normalizedItem normalizedQuery (itemIdx + 1) queryIdx
                       indices chunkFirstIdx chunkLastIdx
  end.

Definition aggressiveFuzzyMatch (normalizedItem normalizedQuery : list N)
  : option (Qc * HighlightRanges) :=
  aggressiveLoop (length normalizedItem) normalizedItem normalizedQuery 0 0 [] (-1) (-2).

(** ** The smart chunk matcher *)

(** The inner [for] loop that extends a chunk; [n] counts the turns that are
    left, [normalizedItemLen - chunkLastIdx].  It returns [chunkLastIdx] and
    [queryIdx] as the loop leaves them. *)
Fixpoint extendChunk (n : nat) (normalizedItem normalizedQuery : list N)
    (chunkLastIdx queryIdx : Z) : Z * Z :=
  match n with
  | O => (chunkLastIdx, queryIdx)
  | S n' =>
      if bool_decide (JS.at_ normalizedItem chunkLastIdx ≠ JS.at_ normalizedQuery queryIdx)
      then (chunkLastIdx, queryIdx)
      else extendChunk n' normalizedItem normalizedQuery (chunkLastIdx + 1) (queryIdx + 1)
  end.

(** The test that accepts [idx] as the start of a chunk (lines 101-113). *)
Definition acceptsChunkStart (normalizedItem normalizedQuery : list N)
    (queryIdx idx : Z) : bool :=
  if bool_decide (idx = 0) || isValidWordBoundary (JS.at_ normalizedItem (idx - 1)) then true
  else
    let queryCharsLeft := JS.len normalizedQuery - queryIdx in
    let itemCharsLeft := JS.len normalizedItem - idx in
    let minChunkLen := Z.min 3 (Z.min queryCharsLeft itemCharsLeft) in
    let minQueryChunk := JS.slice normalizedQuery queryIdx (queryIdx + minChunkLen) in
    bool_decide (JS.slice normalizedItem idx (idx + minChunkLen) = minQueryChunk).

(** What one turn of the [while (true)] loop does. *)
Inductive smartStep : Type :=
  | Break                                    (* [idx === -1]: leave the loop *)
  | Continue (chunkLastIdx : Z)              (* occurrence rejected *)
  | Pushed (chunk : Range) (queryIdx : Z).   (* chunk accepted and extended *)

Definition smartTurn (normalizedItem normalizedQuery : list N) (queryIdx chunkLastIdx : Z)
  : smartStep :=
  let queryChar := JS.at_ normalizedQuery queryIdx in
  let idx := JS.indexOf normalizedItem (JS.toString queryChar) (chunkLastIdx + 1) in
  if bool_decide (idx = -1) then Break
  else if acceptsChunkStart normalizedItem normalizedQuery queryIdx idx then
    let chunkFirstIdx := idx in
    let '(last, queryIdx1) :=
      extendChunk (Z.to_nat (JS.len normalizedItem - chunkFirstIdx))
                  normalizedItem normalizedQuery chunkFirstIdx queryIdx in
    Pushed (chunkFirstIdx, last - 1) queryIdx1
  else Continue (chunkLastIdx + 1).

(** The [while (true)] loop with a bound on its turns.  The outer [None] is
    "bound reached"; [Some None] is [return null]. *)
Fixpoint smartLoop (fuel : nat) (normalizedItem normalizedQuery : list N)
    (indices : HighlightRanges) (queryIdx chunkLastIdx : Z)
  : option (option (Qc * HighlightRanges)) :=
  match fuel with
  | O => None
  | S fuel' =>
      match smartTurn normalizedItem normalizedQuery queryIdx chunkLastIdx with
      | Break => Some None
      | Continue chunkLastIdx1 =>
          smartLoop fuel' normalizedItem normalizedQuery indices queryIdx chunkLastIdx1
      | Pushed chunk queryIdx1 =>
          let indices1 := indices ++ [chunk] in
          if bool_decide (queryIdx1 = JS.len normalizedQuery)
          then Some (Some (scoreConsecutiveLetters indices1 normalizedItem))
          else smartLoop fuel' normalizedItem normalizedQuery indices1 queryIdx1 chunk.2
      end
  end.

(** Turns that always suffice: the length of the item and two more. *)
Definition smartFuel (normalizedItem : list N) : nat := length normalizedItem + 2.

Definition smartFuzzyMatch (normalizedItem normalizedQuery : list N)
  : option (Qc * HighlightRanges) :=
  default None
    (smartLoop (smartFuel normalizedItem) normalizedItem normalizedQuery [] 0 (-2)).

(** ** The match orchestrator *)

Definition multiWordRanges (normalizedItem : list N) (queryWords : list (list N))
  : HighlightRanges :=
  JS.sort (λ a b, bool_decide (0 < sortRangeTuple a b))
    ((λ w, let i := JS.indexOf normalizedItem w 0 in (i, i + JS.len w - 1)) <$> queryWords).

Definition matchesFuzzily (item normalizedItem : list N) (itemWords : gset (list N))
    (query normalizedQuery : list N) (queryWords : list (list N))
    (strategy : FuzzySearchStrategy) : option (Qc * HighlightRanges) :=
  if bool_decide (item = query) then Some (tenths 0, [(0, JS.len item - 1)]) else
  let queryLen := JS.len query in
  let normalizedItemLen := JS.len normalizedItem in
  let normalizedQueryLen := JS.len normalizedQuery in
  if bool_decide (normalizedItem = normalizedQuery)
  then Some (tenths 1, [(0, normalizedItemLen - 1)]) else
  if JS.startsWith normalizedItem normalizedQuery
  then Some (tenths 5, [(0, normalizedQueryLen - 1)]) else
  let exactContainsIdx := JS.indexOf item query 0 in
  if bool_decide (-1 < exactContainsIdx)
     && isValidWordBoundary (JS.at_ item (exactContainsIdx - 1))
  then Some (tenths 9, [(exactContainsIdx, exactContainsIdx + queryLen - 1)]) else
  let containsIdx := JS.indexOf normalizedItem normalizedQuery 0 in
  if bool_decide (-1 < containsIdx)
     && isValidWordBoundary (JS.at_ normalizedItem (containsIdx - 1))
  then Some (tenths 10, [(containsIdx, containsIdx + queryLen - 1)]) else
  if bool_decide (1 < length queryWords)%nat
     && forallb (λ w, bool_decide (w ∈ itemWords)) queryWords
  then Some ((tenths 15 + Q2Qc (inject_Z (Z.of_nat (length queryWords))) * tenths 2)%Qc,
             multiWordRanges normalizedItem queryWords) else
  if bool_decide (-1 < containsIdx)
  then Some (tenths 20, [(containsIdx, containsIdx + queryLen - 1)]) else
  match strategy with
  | aggressive => aggressiveFuzzyMatch normalizedItem normalizedQuery
  | smart => smartFuzzyMatch normalizedItem normalizedQuery
  | off => None
  end.

(** ** [normalize.ts] *)

(** The two operations of the JavaScript runtime that [normalizeText] calls. *)
Class Unicode : Type := {
  toLowerCase : list N → list N;
  normalizeNFD : list N → list N;
}.

Section Api.
Context `{Unicode}.

(** [diacriticsRegex] is the range U+0300..U+036F; [regexŁ] matches U+0142
    and [regexÑ] matches U+00F1. *)
Definition normalizeText (str : list N) : list N :=
  JS.trim
    (JS.replaceAll 0xF1 0x6E
       (JS.replaceAll 0x142 0x6C
          (JS.removeRange 0x300 0x36F (normalizeNFD (toLowerCase str))))).

(** ** The one-off entry point *)

Definition fuzzyMatch (text query : list N) : option (FuzzyResult (list N)) :=
  let normalizedQuery := normalizeText query in
  let queryWords := JS.split space normalizedQuery in
  let normalizedText := normalizeText text in
  let itemWords : gset (list N) := list_to_set (JS.split space normalizedText) in
  match matchesFuzzily text normalizedText itemWords query normalizedQuery
                       queryWords smart with
  | Some result => Some (mkResult text result.1 [Some result.2])
  | None => None
  end.

End Api.

(** ** The collection search builder *)

(** What the builder needs of an element of the collection: reading the
    property [key] (absent: [None]) and the element taken as its own text. *)
Class Element (T : Type) : Type := {
  property : T → string → option (list N);
  selfText : T → list N;
}.

Global Instance string_element : Element (list N) := {
  property _ _ := None;
  selfText s := s;
}.

Record FuzzySearchOptions (T : Type) : Type := mkOptions {
  key : option string;
  getText : option (T → list (option (list N)));
  strategy : option FuzzySearchStrategy;
}.
Arguments mkOptions {T} _ _ _.
Arguments key {T} _.
Arguments getText {T} _.
Arguments strategy {T} _.

(** [options = {}] *)
Definition noOptions {T} : FuzzySearchOptions T := mkOptions None None None.

Definition MAX_SAFE_INTEGER : Qc := Q2Qc (inject_Z (2 ^ 53 - 1)).

(** [Math.min] of two numbers. *)
Definition Math_min (a b : Qc) : Qc := if bool_decide (a ≤ b)%Qc then a else b.

Section Search.
Context `{Unicode} {T : Type} `{Element T}.

(** One field, preprocessed: the text, its normal form, its word set. *)
Definition Field : Type := list N * list N * gset (list N).

(** The texts of one element (lines 231-235); an empty [key] is falsy. *)
Definition textsOf (options : FuzzySearchOptions T) (element : T)
  : list (option (list N)) :=
  match getText options with
  | Some f => f element
  | None =>
      match key options with
      | Some k => if bool_decide (k = EmptyString) then [Some (selfText element)]
                  else [property element k]
      | None => [Some (selfText element)]
      end
  end.

Definition preprocess (options : FuzzySearchOptions T) (collection : list T)
  : list (T * list Field) :=
  (λ element,
     (element,
      (λ text : option (list N),
         let item := default [] text in
         let normalized := normalizeText item in
         (item, normalized, list_to_set (JS.split space normalized) : gset (list N)))
      <$> textsOf options element))
  <$> collection.

(** The inner loop over the fields of one element: best score and the
    per-field matches. *)
Definition matchFields (strat : FuzzySearchStrategy)
    (query normalizedQuery : list N) (queryWords : list (list N))
    (texts : list Field) : Qc * FuzzyMatches :=
  fold_left
    (λ (acc : Qc * FuzzyMatches) (f : Field),
       let '(item, normalizedItem, itemWords) := f in
       match matchesFuzzily item normalizedItem itemWords query normalizedQuery
                            queryWords strat with
       | Some result => (Math_min acc.1 result.1, acc.2 ++ [Some result.2])
       | None => (acc.1, acc.2 ++ [None])
       end)
    texts (MAX_SAFE_INTEGER, []).

(** The outer loop: the results in collection order, before the sort. *)
Definition collect (strat : FuzzySearchStrategy)
    (query normalizedQuery : list N) (queryWords : list (list N))
    (preprocessed : list (T * list Field)) : list (FuzzyResult T) :=
  fold_left
    (λ results '(element, texts),
       let '(bestScore, matches) :=
         matchFields strat query normalizedQuery queryWords texts in
       if bool_decide (bestScore < MAX_SAFE_INTEGER)%Qc
       then results ++ [mkResult element bestScore matches]
       else results)
    preprocessed [].

(** [createFuzzySearch(collection, options)] applied to a query. *)
Definition createFuzzySearch (collection : list T) (options : FuzzySearchOptions T)
    (query : list N) : list (FuzzyResult T) :=
  let strat := default smart (strategy options) in
  let preprocessed := preprocess options collection in
  let normalizedQuery := normalizeText query in
  let queryWords := JS.split space normalizedQuery in
  if bool_decide (JS.len normalizedQuery = 0) then []
  else JS.sort (λ a b, bool_decide (0 < sortByScore a b)%Qc)
               (collect strat query normalizedQuery queryWords preprocessed).

End Search.

(** ** A fragment of the Unicode character database

    [ucd] implements the two runtime operations for strings over Basic Latin,
    Latin-1, U+0141/U+0142, the combining marks U+0300..U+036F, the
    unaccented Greek letters U+0391..U+03A9 and U+03B1..U+03C9 and the Hebrew
    block U+0590..U+05FF.
    - [toLowerCase] is the default case conversion of Unicode: the simple
      lowercase mapping of each unit, and the Final_Sigma rule of
      SpecialCasing.txt for U+03A3.
    - [normalize("NFD")] is canonical decomposition followed by canonical
      ordering, with the decomposition mappings and the combining classes of
      UnicodeData.txt.
    Any other code unit is taken as a caseless starter without decomposition
    and left as it is. *)

Module UCD.

(** Simple lowercase mapping. *)
Definition lowerUnit (c : N) : N :=
  if bool_decide (0x41 ≤ c ∧ c ≤ 0x5A)%N then (c + 32)%N
  else if bool_decide (0xC0 ≤ c ∧ c ≤ 0xDE ∧ c ≠ 0xD7)%N then (c + 32)%N
  else if bool_decide (c = 0x141)%N then 0x142%N
  else if bool_decide (0x391 ≤ c ∧ c ≤ 0x3A9 ∧ c ≠ 0x3A2)%N then (c + 32)%N
  else c.

(** Property Cased. *)
Definition cased (c : N) : bool :=
  bool_decide ((0x41 ≤ c ∧ c ≤ 0x5A) ∨ (0x61 ≤ c ∧ c ≤ 0x7A)
               ∨ c = 0xAA ∨ c = 0xB5 ∨ c = 0xBA
               ∨ (0xC0 ≤ c ∧ c ≤ 0xFF ∧ c ≠ 0xD7 ∧ c ≠ 0xF7)
               ∨ c = 0x141 ∨ c = 0x142 ∨ c = 0x345
               ∨ (0x391 ≤ c ∧ c ≤ 0x3A9 ∧ c ≠ 0x3A2) ∨ (0x3B1 ≤ c ∧ c ≤ 0x3C9))%N.

(** Property Case_Ignorable. *)
Definition caseIgnorable (c : N) : bool :=
  bool_decide (c ∈ [0x27; 0x2E; 0x3A; 0x5E; 0x60; 0xA8; 0xAD; 0xAF; 0xB4; 0xB7;
                    0xB8; 0x5BF; 0x5C1; 0x5C2; 0x5C4; 0x5C5; 0x5C7; 0x5F4]%N)
  || bool_decide ((0x300 ≤ c ∧ c ≤ 0x36F) ∨ (0x591 ≤ c ∧ c ≤ 0x5BD))%N.

(** Is the next unit that is not case-ignorable a cased letter? *)
Fixpoint casedNext (s : list N) : bool :=
  match s with
  | [] => false
  | c :: s' => if caseIgnorable c then casedNext s' else cased c
  end.

(** [before] is the text already read, last unit first.  A capital sigma
    becomes a final sigma when a cased letter precedes it and none follows. *)
Fixpoint lowerFrom (before s : list N) : list N :=
  match s with
  | [] => []
  | c :: s' =>
      (if bool_decide (c = 0x3A3)%N && casedNext before && negb (casedNext s')
       then 0x3C2%N else lowerUnit c) :: lowerFrom (c :: before) s'
  end.

Definition lower (s : list N) : list N := lowerFrom [] s.

(** Full canonical decompositions. *)
Definition decompositions : list (N * list N) := [
  (0xC0, [0x41; 0x300]); (0xC1, [0x41; 0x301]); (0xC2, [0x41; 0x302]);
  (0xC3, [0x41; 0x303]); (0xC4, [0x41; 0x308]); (0xC5, [0x41; 0x30A]);
  (0xC7, [0x43; 0x327]); (0xC8, [0x45; 0x300]); (0xC9, [0x45; 0x301]);
  (0xCA, [0x45; 0x302]); (0xCB, [0x45; 0x308]); (0xCC, [0x49; 0x300]);
  (0xCD, [0x49; 0x301]); (0xCE, [0x49; 0x302]); (0xCF, [0x49; 0x308]);
  (0xD1, [0x4E; 0x303]); (0xD2, [0x4F; 0x300]); (0xD3, [0x4F; 0x301]);
  (0xD4, [0x4F; 0x302]); (0xD5, [0x4F; 0x303]); (0xD6, [0x4F; 0x308]);
  (0xD9, [0x55; 0x300]); (0xDA, [0x55; 0x301]); (0xDB, [0x55; 0x302]);
  (0xDC, [0x55; 0x308]); (0xDD, [0x59; 0x301]); (0xE0, [0x61; 0x300]);
  (0xE1, [0x61; 0x301]); (0xE2, [0x61; 0x302]); (0xE3, [0x61; 0x303]);
  (0xE4, [0x61; 0x308]); (0xE5, [0x61; 0x30A]); (0xE7, [0x63; 0x327]);
  (0xE8, [0x65; 0x300]); (0xE9, [0x65; 0x301]); (0xEA, [0x65; 0x302]);
  (0xEB, [0x65; 0x308]); (0xEC, [0x69; 0x300]); (0xED, [0x69; 0x301]);
  (0xEE, [0x69; 0x302]); (0xEF, [0x69; 0x308]); (0xF1, [0x6E; 0x303]);
  (0xF2, [0x6F; 0x300]); (0xF3, [0x6F; 0x301]); (0xF4, [0x6F; 0x302]);
  (0xF5, [0x6F; 0x303]); (0xF6, [0x6F; 0x308]); (0xF9, [0x75; 0x300]);
  (0xFA, [0x75; 0x301]); (0xFB, [0x75; 0x302]); (0xFC, [0x75; 0x308]);
  (0xFD, [0x79; 0x301]); (0xFF, [0x79; 0x308]); (0x340, [0x300]); (0x341, [0x301]);
  (0x343, [0x313]); (0x344, [0x308; 0x301])
]%N.

Definition decompose (c : N) : list N :=
  match list_find (λ e : N * list N, e.1 = c) decompositions with
  | Some (_, (_, d)) => d
  | None => [c]
  end.

(** Canonical combining classes, by range; every other unit is a starter. *)
Definition combiningClasses : list (N * N * N) := [
  (0x300, 0x314, 230); (0x315, 0x315, 232); (0x316, 0x319, 220); (0x31A, 0x31A, 232);
  (0x31B, 0x31B, 216); (0x31C, 0x320, 220); (0x321, 0x322, 202); (0x323, 0x326, 220);
  (0x327, 0x328, 202); (0x329, 0x333, 220); (0x334, 0x338, 1); (0x339, 0x33C, 220);
  (0x33D, 0x344, 230); (0x345, 0x345, 240); (0x346, 0x346, 230); (0x347, 0x349, 220);
  (0x34A, 0x34C, 230); (0x34D, 0x34E, 220); (0x34F, 0x34F, 0); (0x350, 0x352, 230);
  (0x353, 0x356, 220); (0x357, 0x357, 230); (0x358, 0x358, 232); (0x359, 0x35A, 220);
  (0x35B, 0x35B, 230); (0x35C, 0x35C, 233); (0x35D, 0x35E, 234); (0x35F, 0x35F, 233);
  (0x360, 0x361, 234); (0x362, 0x362, 233); (0x363, 0x36F, 230); (0x591, 0x591, 220);
  (0x592, 0x595, 230); (0x596, 0x596, 220); (0x597, 0x599, 230); (0x59A, 0x59A, 222);
  (0x59B, 0x59B, 220); (0x59C, 0x5A1, 230); (0x5A2, 0x5A7, 220); (0x5A8, 0x5A9, 230);
  (0x5AA, 0x5AA, 220); (0x5AB, 0x5AC, 230); (0x5AD, 0x5AD, 222); (0x5AE, 0x5AE, 228);
  (0x5AF, 0x5AF, 230); (0x5B0, 0x5B0, 10); (0x5B1, 0x5B1, 11); (0x5B2, 0x5B2, 12);
  (0x5B3, 0x5B3, 13); (0x5B4, 0x5B4, 14); (0x5B5, 0x5B5, 15); (0x5B6, 0x5B6, 16);
  (0x5B7, 0x5B7, 17); (0x5B8, 0x5B8, 18); (0x5B9, 0x5BA, 19); (0x5BB, 0x5BB, 20);
  (0x5BC, 0x5BC, 21); (0x5BD, 0x5BD, 22); (0x5BF, 0x5BF, 23); (0x5C1, 0x5C1, 24);
  (0x5C2, 0x5C2, 25); (0x5C4, 0x5C4, 230); (0x5C5, 0x5C5, 220); (0x5C7, 0x5C7, 18)
]%N.

Definition ccc (c : N) : N :=
  match list_find (λ e : N * N * N, e.1.1 ≤ c ∧ c ≤ e.1.2)%N combiningClasses with
  | Some (_, (_, _, k)) => k
  | None => 0%N
  end.

(** Canonical ordering: a mark moves behind the marks of a smaller class
    that follow it; a starter stops it. *)
Fixpoint insertMark (c : N) (s : list N) : list N :=
  match s with
  | d :: s' =>
      if bool_decide (0 < ccc d ∧ ccc d < ccc c)%N then d :: insertMark c s'
      else c :: s
  | [] => [c]
  end.

Definition reorder (s : list N) : list N := foldr insertMark [] s.

Definition nfd (s : list N) : list N := reorder (s ≫= decompose).

End UCD.

Definition ucd : Unicode := {|
  toLowerCase := UCD.lower;
  normalizeNFD := UCD.nfd;
|}.

(** * The vocabulary of the statements *)

(** ** The scorer, in the words of its description *)

Module Spec.

(** The penalty of one chunk, in the words of the description, for a given
    notion of boundary character. *)
Definition chunkPenalty (isBoundary : option N → bool) (normalizedItem : list N)
    (chunk : Z * Z) : Qc :=
  let startsAtBoundary :=
    bool_decide (chunk.1 = 0) || isBoundary (JS.at_ normalizedItem (chunk.1 - 1)) in
  let endsAtBoundary :=
    bool_decide (chunk.2 = JS.len normalizedItem - 1)
    || isBoundary (JS.at_ normalizedItem (chunk.2 + 1)) in
  if startsAtBoundary && endsAtBoundary then tenths 2
  else if startsAtBoundary then tenths 4
  else if bool_decide (3 ≤ chunk.2 - chunk.1 + 1) then tenths 8
  else tenths 16.

(** "2.0 plus, per chunk, its penalty". *)
Definition runScore (isBoundary : option N → bool) (indices : list (Z * Z))
    (normalizedItem : list N) : Qc :=
  (tenths 20 + foldr Qcplus (tenths 0) (chunkPenalty isBoundary normalizedItem <$> indices))%Qc.

(** The boundary of the scorer: the space character alone. *)
Definition isSpace (c : option N) : bool := bool_decide (c = Some space).

End Spec.

(** ** Tiers *)

(** The conditions of the five tiers that come before the multi-word tier
    (lines 141-158). *)
Definition earlierTierApplies (item normalizedItem query normalizedQuery : list N) : Prop :=
  item = query
  ∨ normalizedItem = normalizedQuery
  ∨ normalizedQuery `prefix_of` normalizedItem
  ∨ (-1 < JS.indexOf item query 0
     ∧ isValidWordBoundary (JS.at_ item (JS.indexOf item query 0 - 1)) = true)
  ∨ (-1 < JS.indexOf normalizedItem normalizedQuery 0
     ∧ isValidWordBoundary
         (JS.at_ normalizedItem (JS.indexOf normalizedItem normalizedQuery 0 - 1)) = true).

(** ** The runtime on ASCII text *)

Definition isAscii (c : N) : Prop := (c < 128)%N.

Global Instance isAscii_dec (c : N) : Decision (isAscii c) := N.lt_dec c 128%N.

Definition asciiLower (c : N) : N :=
  if bool_decide (0x41 ≤ c ∧ c ≤ 0x5A)%N then (c + 32)%N else c.

(** On ASCII text [toLowerCase] maps A-Z to a-z and [normalize("NFD")]
    changes nothing. *)
Class UnicodeAscii `{Unicode} : Prop := {
  toLowerCase_ascii (s : list N) : Forall isAscii s → toLowerCase s = asciiLower <$> s;
  normalizeNFD_ascii (s : list N) : Forall isAscii s → normalizeNFD s = s;
}.

(** ** Loop states and chunks *)

(** The states [(queryIdx, chunkLastIdx)] in which the [while] loop starts a
    turn. *)
Inductive smartReach (normalizedItem normalizedQuery : list N) : Z → Z → Prop :=
  | reach_start : smartReach normalizedItem normalizedQuery 0 (-2)
  | reach_continue q c c' :
      smartReach normalizedItem normalizedQuery q c →
      smartTurn normalizedItem normalizedQuery q c = Continue c' →
      smartReach normalizedItem normalizedQuery q c'
  | reach_pushed q c chunk q' :
      smartReach normalizedItem normalizedQuery q c →
      smartTurn normalizedItem normalizedQuery q c = Pushed chunk q' →
      q' ≠ JS.len normalizedQuery →
      smartReach normalizedItem normalizedQuery q' chunk.2.

(** A chunk passes when it starts at index 0 or after a boundary character
    or has at least three characters. *)
Definition anchoredOrLong (normalizedItem : list N) (chunk : Z * Z) : Prop :=
  chunk.1 = 0
  ∨ isValidWordBoundary (JS.at_ normalizedItem (chunk.1 - 1)) = true
  ∨ 3 ≤ chunk.2 - chunk.1 + 1.

(** [r1] lies before [r2]: it starts first and ends before [r2] starts. *)
Definition liesBefore (r1 r2 : Z * Z) : Prop := r1.1 < r2.1 ∧ r1.2 < r2.1.

(** [r1] starts no later than [r2]. *)
Definition startsFirst (r1 r2 : Z * Z) : Prop := r1.1 ≤ r2.1.

(** The state of the aggressive loop: no chunk yet, or an open chunk that
    ends before the current index and starts after every closed chunk. *)
Definition aggressiveInv (itemIdx : Z) (indices : list (Z * Z)) (cf cl : Z) : Prop :=
  (cf = -1 ∧ cl = -2 ∧ indices = [])
  ∨ (0 ≤ cf ≤ cl ∧ cl < itemIdx
     ∧ StronglySorted liesBefore indices
     ∧ Forall (λ r, r.1 ≤ r.2 ∧ r.2 ≤ cf - 1) indices).

(** ** The steps of the normalizer *)

(** The four steps after [toLowerCase] and [normalize("NFD")]. *)
Definition strip (s : list N) : list N :=
  JS.trim (JS.replaceAll 0xF1 0x6E (JS.replaceAll 0x142 0x6C (JS.removeRange 0x300 0x36F s))).

(** [trimStart] changes nothing exactly when there is no white space in
    front. *)
Definition startsClean (s : list N) : Prop :=
  match s with
  | [] => True
  | c :: _ => JS.isWhiteSpace c = false
  end.

(** ** Texts of the examples *)

(** Capital alpha, capital sigma, and their small forms. *)
Definition Alpha : N := 0x391%N.
Definition Sigma : N := 0x3A3%N.
Definition alpha : N := 0x3B1%N.
Definition sigma : N := 0x3C3%N.
Definition finalSigma : N := 0x3C2%N.

(** The name of Jerusalem as the Hebrew Bible spells it: yod, sheva, resh,
    vav, dagesh, shin, qamats, shin dot, lamed, patah, the combining grapheme
    joiner, hiriq, final mem. *)
Definition yerushalaim : list N :=
  [0x5D9; 0x5B0; 0x5E8; 0x5D5; 0x5BC; 0x5E9; 0x5B8; 0x5C1; 0x5DC; 0x5B7; 0x34F; 0x5B4;
   0x5DD]%N.

(** "  Café Łód " *)
Definition cafe : list N :=
  [0x20; 0x20; 0x43; 0x61; 0x66; 0xE9; 0x20; 0x141; 0xF3; 0x64; 0x20]%N.

(** ** Highlighted text *)

(** The text that a list of ranges marks in a string. *)
Definition highlighted (s : list N) (ranges : list (Z * Z)) : list N :=
  ranges ≫= (λ r, JS.slice s r.1 (r.2 + 1)).

(** At least one unmarked position lies between [r1] and [r2]. *)
Definition apart (r1 r2 : Z * Z) : Prop := r1.2 + 1 < r2.1.

(** A range that is not empty and lies within a string. *)
Definition within (s : list N) (r : Z * Z) : Prop :=
  0 ≤ r.1 ∧ r.1 ≤ r.2 ∧ r.2 < JS.len s.

(** [pat] occurs in [s] as a substring. *)
Definition occursIn (pat s : list N) : Prop := ∃ l1 l2, s = l1 ++ pat ++ l2.



(** ** The collection search *)

(** The outcome of [matchesFuzzily] on one preprocessed field. *)
Definition fieldMatch (strat : FuzzySearchStrategy) (query normalizedQuery : list N)
    (queryWords : list (list N)) (f : Field) : option (Qc * HighlightRanges) :=
  matchesFuzzily f.1.1 f.1.2 f.2 query normalizedQuery queryWords strat.

(** The outcome for a field of what the search function derives from its
    options and the query (lines 228, 248-249). *)
Definition queryMatch `{Unicode} {T : Type} (options : FuzzySearchOptions T)
    (query : list N) (f : Field) : option (Qc * HighlightRanges) :=
  fieldMatch (default smart (strategy options)) query (normalizeText query)
             (JS.split space (normalizeText query)) f.

(** The least of [best] and the scores of the fields that match. *)
Definition bestOver (strat : FuzzySearchStrategy) (query normalizedQuery : list N)
    (queryWords : list (list N)) (texts : list Field) (best : Qc) : Qc :=
  fold_left
    (λ b f, match fieldMatch strat query normalizedQuery queryWords f with
            | Some r => Math_min b r.1
            | None => b
            end)
    texts best.

(** What the outer loop pushes for one preprocessed element (lines 254-277). *)
Definition resultOf {T : Type} (strat : FuzzySearchStrategy)
    (query normalizedQuery : list N) (queryWords : list (list N))
    (entry : T * list Field) : option (FuzzyResult T) :=
  let '(bestScore, matches) :=
    matchFields strat query normalizedQuery queryWords entry.2 in
  if bool_decide (bestScore < MAX_SAFE_INTEGER)%Qc
  then Some (mkResult entry.1 bestScore matches) else None.

Global Instance Qc_eq_decision : EqDecision Qc := Qc_eq_dec.

(** A query whose normal form is not empty and shorter than 2^52 units: the
    scores of its matches stay below [MAX_SAFE_INTEGER]. *)
Definition searchable `{Unicode} (query : list N) : Prop :=
  normalizeText query ≠ [] ∧ JS.len (normalizeText query) < 2 ^ 52.

(** ** Closed goals *)

(** Closed equations between numbers. *)
Ltac qc_eq := apply Qc_is_canon; vm_compute; reflexivity.

(** Closed equations between values that hold numbers: evaluate both sides,
    then compare the numbers as rationals. *)
Ltac by_evaluation :=
  vm_compute; repeat first [reflexivity | apply Qc_is_canon; reflexivity | f_equal].

(** Closed [Forall isAscii] goals. *)
Ltac ascii := apply (bool_decide_unpack _); vm_compute; reflexivity.

(** * Properties *)

(** ** Numbers *)

Lemma tenths_le (a b : Z) : a ≤ b → (tenths a ≤ tenths b)%Qc.
Proof.
  intros Hab. unfold Qcle, tenths. simpl.
  rewrite !Qred_correct. unfold Qle. simpl. lia.
Qed.

Lemma tenths_inj (a b : Z) : tenths a = tenths b → a = b.
Proof.
  intros Heq. apply (f_equal this) in Heq. unfold tenths in Heq. simpl in Heq.
  assert (Hq : (a # 10 == b # 10)%Q) by (rewrite <- (Qred_correct (a # 10)), Heq; apply Qred_correct).
  unfold Qeq in Hq. simpl in Hq. lia.
Qed.


(** ** The consecutive-run scorer against its description *)

Lemma scoreChunk_penalty (normalizedItem : list N) (score : Qc) (chunk : Z * Z) :
  scoreChunk normalizedItem score chunk
  = (score + Spec.chunkPenalty Spec.isSpace normalizedItem chunk)%Qc.
Proof.
  destruct chunk as [firstIdx lastIdx].
  unfold scoreChunk, Spec.chunkPenalty, Spec.isSpace. simpl.
  repeat case_match; reflexivity.
Qed.

Lemma fold_scoreChunk (normalizedItem : list N) (indices : list (Z * Z)) (score : Qc) :
  fold_left (scoreChunk normalizedItem) indices score
  = (score + foldr Qcplus (tenths 0)
               (Spec.chunkPenalty Spec.isSpace normalizedItem <$> indices))%Qc.
Proof.
  revert score. induction indices as [|chunk indices IH]; intros score.
  - cbn [fold_left fmap list_fmap foldr].
    replace (tenths 0) with (Q2Qc 0) by qc_eq. by rewrite Qcplus_0_r.
  - cbn [fold_left fmap list_fmap foldr].
    rewrite IH, scoreChunk_penalty. by rewrite Qcplus_assoc.
Qed.

Lemma scoreConsecutiveLetters_runScore (indices : list (Z * Z)) (normalizedItem : list N) :
  (scoreConsecutiveLetters indices normalizedItem).1
  = Spec.runScore Spec.isSpace indices normalizedItem.
Proof.
  unfold scoreConsecutiveLetters, Spec.runScore. cbn [fst]. by rewrite fold_scoreChunk.
Qed.

(** C2, as amended: for every chunk list and normalized item the scorer
    returns the chunk list unchanged and the score 2.0 plus, per chunk, 0.2
    when the chunk starts at index 0 or after a space and ends at the last
    index or before a space, else 0.4 when it starts so, else 0.8 when it has
    at least 3 characters, else 1.6; the only boundary character of the
    scorer is the space. *)
Theorem scoreConsecutiveLetters_spec (indices : list (Z * Z)) (normalizedItem : list N) :
  scoreConsecutiveLetters indices normalizedItem
  = (Spec.runScore Spec.isSpace indices normalizedItem, indices).
Proof.
  unfold scoreConsecutiveLetters, Spec.runScore. by rewrite fold_scoreChunk.
Qed.

(** C2, as stated, fails: in "a-b" the chunks [0,0] and [2,2] (what the smart
    matcher finds for the query "ab") touch the boundary character "-".  With
    the boundary set of the classifier the score would be 2.4; the scorer
    returns 4.0. *)
Lemma scoreConsecutiveLetters_not_boundary_set :
  smartFuzzyMatch (js "a-b") (js "ab")
    = Some (scoreConsecutiveLetters [(0, 0); (2, 2)] (js "a-b"))
  ∧ (scoreConsecutiveLetters [(0, 0); (2, 2)] (js "a-b")).1 = tenths 40
  ∧ Spec.runScore isValidWordBoundary [(0, 0); (2, 2)] (js "a-b") = tenths 24
  ∧ (scoreConsecutiveLetters [(0, 0); (2, 2)] (js "a-b")).1
    ≠ Spec.runScore isValidWordBoundary [(0, 0); (2, 2)] (js "a-b").
Proof.
  assert (H1 : (scoreConsecutiveLetters [(0, 0); (2, 2)] (js "a-b")).1 = tenths 40) by qc_eq.
  assert (H2 : Spec.runScore isValidWordBoundary [(0, 0); (2, 2)] (js "a-b") = tenths 24) by qc_eq.
  split_and!; [by vm_compute | done | done |].
  rewrite H1, H2. intros Heq. by apply tenths_inj in Heq.
Qed.

(** ** Sorting *)

Section Sort.
Context {A : Type} (positive : A → A → bool) (R : A → A → Prop).
Hypothesis R_trans : ∀ x y z, R x y → R y z → R x z.
Hypothesis positive_false : ∀ x y, positive x y = false → R x y.
Hypothesis positive_true : ∀ x y, positive x y = true → R y x.

Lemma insertBy_Forall (P : A → Prop) (x : A) (l : list A) :
  P x → Forall P l → Forall P (JS.insertBy positive x l).
Proof.
  intros Hx. induction 1 as [|y l Hy Hl IH]; simpl.
  - by constructor.
  - destruct (positive x y); repeat constructor; done.
Qed.

Lemma insertBy_sorted (x : A) (l : list A) :
  StronglySorted R l → StronglySorted R (JS.insertBy positive x l).
Proof.
  induction 1 as [|y l Hl IH Hy]; simpl.
  - repeat constructor.
  - destruct (positive x y) eqn:Hxy.
    + constructor; [done|]. apply insertBy_Forall; [by apply positive_true | done].
    + constructor; [by constructor|].
      constructor; [by apply positive_false|].
      eapply Forall_impl; [exact Hy|]. intros z Hz.
      eapply R_trans; [by apply positive_false | done].
Qed.

Lemma sort_sorted (l : list A) : StronglySorted R (JS.sort positive l).
Proof.
  induction l as [|x l IH]; simpl; [constructor | by apply insertBy_sorted].
Qed.

End Sort.

(** The sort rearranges: nothing is lost or added. *)
Lemma insertBy_perm {A} (positive : A → A → bool) (x : A) (l : list A) :
  JS.insertBy positive x l ≡ₚ x :: l.
Proof.
  induction l as [|y l IH]; simpl; [done|].
  destruct (positive x y); [|done]. rewrite IH. apply Permutation_swap.
Qed.

Lemma sort_perm {A} (positive : A → A → bool) (l : list A) : JS.sort positive l ≡ₚ l.
Proof.
  induction l as [|x l IH]; simpl; [done|]. by rewrite insertBy_perm, IH.
Qed.

Lemma Qc_sub_pos (a b : Qc) : (0 < a - b)%Qc ↔ (b < a)%Qc.
Proof.
  split; intros Hlt.
  - apply Qclt_minus_iff. by replace (a + - b)%Qc with (a - b)%Qc by ring.
  - apply Qclt_minus_iff in Hlt. by replace (a - b)%Qc with (a + - b)%Qc by ring.
Qed.

(** C7: for every collection, options and query, the list that the search
    function returns is non-decreasing in score from its first element to its
    last: every result scores at most what each later result scores. *)
Theorem createFuzzySearch_sorted `{Unicode} {T : Type} `{Element T}
    (collection : list T) (options : FuzzySearchOptions T) (query : list N) :
  StronglySorted (λ a b, (score a ≤ score b)%Qc)
                 (createFuzzySearch collection options query).
Proof.
  unfold createFuzzySearch. case_bool_decide; [constructor|].
  apply sort_sorted.
  - intros x y z. apply Qcle_trans.
  - intros x y Hpos. apply bool_decide_eq_false in Hpos.
    unfold sortByScore in Hpos. rewrite Qc_sub_pos in Hpos. by apply Qcnot_lt_le.
  - intros x y Hpos. apply bool_decide_eq_true in Hpos.
    unfold sortByScore in Hpos. rewrite Qc_sub_pos in Hpos. by apply Qclt_le_weak.
Qed.

(** ** The multi-word tier *)


Lemma multi_word_number (n : nat) :
  (tenths 15 + Q2Qc (inject_Z (Z.of_nat n)) * tenths 2)%Qc = tenths (15 + 2 * Z.of_nat n).
Proof.
  apply Qc_is_canon. unfold tenths. simpl.
  rewrite !Qred_correct. unfold Qeq, Qplus, Qmult, inject_Z. simpl. lia.
Qed.

(** C5: when no earlier tier applies and the query consists of n >= 2 words
    that all belong to the word set of the item, the match succeeds with score
    1.5 + 0.2 n.  The words may come in any order ([queryWords] is any
    arrangement of [words]) and the words of the item are a set: the score
    depends on neither order. *)
Theorem multi_word_score (item normalizedItem : list N) (itemWords : gset (list N))
    (query normalizedQuery : list N) (words queryWords : list (list N))
    (strategy : FuzzySearchStrategy) :
  queryWords ≡ₚ words →
  ¬ earlierTierApplies item normalizedItem query normalizedQuery →
  (2 ≤ length words)%nat →
  (∀ w, w ∈ words → w ∈ itemWords) →
  fst <$> matchesFuzzily item normalizedItem itemWords query normalizedQuery
                         queryWords strategy
  = Some (tenths (15 + 2 * Z.of_nat (length words))).
Proof.
  intros Hperm Hearlier Hn Hall. unfold matchesFuzzily, JS.startsWith.
  unfold earlierTierApplies in Hearlier.
  case_bool_decide; [tauto|].
  case_bool_decide; [tauto|].
  case_bool_decide; [tauto|].
  destruct (_ && _) eqn:H4.
  { apply andb_true_iff in H4 as [H4 ?]. apply bool_decide_eq_true in H4. tauto. }
  destruct (bool_decide (-1 < JS.indexOf normalizedItem _ _) && _) eqn:H5.
  { apply andb_true_iff in H5 as [H5 ?]. apply bool_decide_eq_true in H5. tauto. }
  rewrite bool_decide_eq_true_2 by (rewrite Hperm; lia).
  assert (Hevery : forallb (λ w, bool_decide (w ∈ itemWords)) queryWords = true).
  { apply forallb_forall. intros w Hw. apply bool_decide_eq_true, Hall.
    rewrite <- Hperm. by apply list_elem_of_In. }
  rewrite Hevery. simpl. by rewrite multi_word_number, Hperm.
Qed.

(** The text "foo bar" and the query "bar foo". *)
Lemma multi_word_score_witness :
  fst <$> matchesFuzzily (js "foo bar") (js "foo bar") {[ js "foo"; js "bar" ]}
                         (js "bar foo") (js "bar foo") [js "bar"; js "foo"] smart
  = Some (tenths 19).
Proof.
  apply (multi_word_score (js "foo bar") (js "foo bar") {[ js "foo"; js "bar" ]}
                          (js "bar foo") (js "bar foo") [js "foo"; js "bar"]
                          [js "bar"; js "foo"] smart).
  - apply Permutation_swap.
  - unfold earlierTierApplies. vm_compute. intros [H|[H|[H|[[_ H]|[H _]]]]]; try done.
    revert H. apply (bool_decide_eq_false_1 (js "bar foo" `prefix_of` js "foo bar")).
    by vm_compute.
  - simpl. lia.
  - intros w Hw. apply elem_of_cons in Hw as [->|Hw]; [set_solver|].
    apply list_elem_of_singleton in Hw as ->. set_solver.
Defined.

(** ** What the matcher needs of the runtime on ASCII text *)


Lemma asciiLower_ascii (s : list N) : Forall isAscii s → Forall isAscii (asciiLower <$> s).
Proof.
  intros Hs. apply Forall_fmap. eapply Forall_impl; [exact Hs|].
  intros c Hc. unfold isAscii, asciiLower in *. simpl. case_bool_decide; lia.
Qed.

Lemma removeRange_ascii (s : list N) : Forall isAscii s → JS.removeRange 0x300 0x36F s = s.
Proof.
  unfold JS.removeRange. induction 1 as [|c s Hc Hs IH]; [done|].
  rewrite filter_cons_True; [by rewrite IH|]. unfold isAscii in Hc. lia.
Qed.

Lemma replaceAll_absent (c by_ : N) (s : list N) : c ∉ s → JS.replaceAll c by_ s = s.
Proof.
  unfold JS.replaceAll. induction s as [|x s IH]; [done|].
  intros Hc. apply not_elem_of_cons in Hc as [Hx Hs]. cbn [fmap list_fmap].
  rewrite bool_decide_eq_false_2 by done. f_equal. by apply IH.
Qed.

Lemma ascii_absent (c : N) (s : list N) : (128 ≤ c)%N → Forall isAscii s → c ∉ s.
Proof.
  intros Hc Hs Hin. rewrite Forall_forall in Hs. apply Hs in Hin.
  unfold isAscii in Hin. lia.
Qed.

Section Ascii.
Context `{UnicodeAscii}.

Lemma normalizeText_ascii (s : list N) :
  Forall isAscii s → normalizeText s = JS.trim (asciiLower <$> s).
Proof.
  intros Hs. unfold normalizeText.
  rewrite (toLowerCase_ascii s Hs).
  pose proof (asciiLower_ascii s Hs) as Hl.
  rewrite (normalizeNFD_ascii _ Hl), (removeRange_ascii _ Hl).
  rewrite (replaceAll_absent 0x142) by (apply ascii_absent; [lia | done]).
  by rewrite (replaceAll_absent 0xF1) by (apply ascii_absent; [lia | done]).
Qed.

End Ascii.

(** [ucd] has the ASCII behaviour of the runtime. *)

Lemma ucd_lowerFrom_ascii (before s : list N) :
  Forall isAscii s → UCD.lowerFrom before s = asciiLower <$> s.
Proof.
  intros Hs. revert before. induction Hs as [|c s Hc Hs IH]; intros before; [done|].
  cbn [UCD.lowerFrom fmap list_fmap]. rewrite IH. f_equal.
  unfold isAscii in Hc.
  rewrite (bool_decide_eq_false_2 (c = 0x3A3%N)) by lia. simpl.
  unfold UCD.lowerUnit, asciiLower. repeat case_bool_decide; lia.
Qed.

Lemma ucd_decompose_ascii (c : N) : isAscii c → UCD.decompose c = [c].
Proof.
  unfold isAscii. intros Hc.
  assert (Hall : Forall (λ e : N * list N, e.1 ≠ c) UCD.decompositions).
  { unfold UCD.decompositions. repeat (constructor; [simpl; lia|]). constructor. }
  unfold UCD.decompose.
  destruct (list_find _ _) as [[i [a d]]|] eqn:Hfind; [|done].
  apply list_find_Some in Hfind as (Hi & Ha & _).
  rewrite Forall_forall in Hall. exfalso. eapply Hall; [|exact Ha].
  by eapply list_elem_of_lookup_2.
Qed.

Lemma ucd_ccc_ascii (c : N) : isAscii c → UCD.ccc c = 0%N.
Proof.
  unfold isAscii. intros Hc.
  assert (Hall : Forall (λ e : N * N * N, ¬ (e.1.1 ≤ c ∧ c ≤ e.1.2)%N) UCD.combiningClasses).
  { unfold UCD.combiningClasses. repeat (constructor; [simpl; lia|]). constructor. }
  unfold UCD.ccc.
  destruct (list_find _ _) as [[i [[a b] k]]|] eqn:Hfind; [|done].
  apply list_find_Some in Hfind as (Hi & Ha & _).
  rewrite Forall_forall in Hall. exfalso. eapply Hall; [|exact Ha].
  by eapply list_elem_of_lookup_2.
Qed.

Lemma ucd_nfd_ascii (s : list N) : Forall isAscii s → UCD.nfd s = s.
Proof.
  unfold UCD.nfd, UCD.reorder. induction 1 as [|c s Hc Hs IH]; [done|].
  cbn [mbind list_bind]. rewrite (ucd_decompose_ascii c Hc).
  cbn [app foldr]. setoid_rewrite IH.
  destruct s as [|d s']; [done|]. cbn [UCD.insertMark].
  rewrite bool_decide_eq_false_2; [done|]. rewrite (ucd_ccc_ascii c Hc). lia.
Qed.

Global Instance ucd_ascii : @UnicodeAscii ucd.
Proof.
  split; intros s Hs; [apply (ucd_lowerFrom_ascii [] s Hs) | apply (ucd_nfd_ascii s Hs)].
Qed.


(** ** Scenarios of the description *)

(** C6: the collection ["Hello World"], searched with the aggressive strategy
    for "hwl", gives one result: the item "Hello World", score 4.4 and the
    three one-character chunks at 0, 6 and 9. *)
Theorem hello_world_aggressive `{UnicodeAscii} :
  createFuzzySearch [js "Hello World"] (mkOptions None None (Some aggressive)) (js "hwl")
  = [mkResult (js "Hello World") (tenths 44) [Some [(0, 0); (6, 6); (9, 9)]]].
Proof.
  unfold createFuzzySearch, preprocess, textsOf.
  cbn [getText key strategy fmap list_fmap default selfText string_element].
  rewrite !normalizeText_ascii by ascii.
  by_evaluation.
Qed.

(** The scenario on [ucd]. *)
Lemma hello_world_aggressive_witness :
  @createFuzzySearch ucd _ _ [js "Hello World"] (mkOptions None None (Some aggressive))
                     (js "hwl")
  = [mkResult (js "Hello World") (tenths 44) [Some [(0, 0); (6, 6); (9, 9)]]].
Proof. apply (@hello_world_aggressive ucd ucd_ascii). Defined.

(** The chunks of C6 are scored 0.4, 0.4 and 1.6 on top of 2. *)
Lemma hello_world_penalties :
  Spec.chunkPenalty Spec.isSpace (js "hello world") <$> [(0, 0); (6, 6); (9, 9)]
  = [tenths 4; tenths 4; tenths 16].
Proof. repeat (f_equal; [qc_eq|]). done. Qed.

(** The two examples of the README. *)
Example banana_prefix `{UnicodeAscii} :
  createFuzzySearch [js "apple"; js "banana"; js "cherry"; js "grape"] noOptions (js "ban")
  = [mkResult (js "banana") (tenths 5) [Some [(0, 2)]]].
Proof.
  unfold createFuzzySearch, preprocess, textsOf.
  cbn [getText key strategy noOptions fmap list_fmap default selfText string_element].
  rewrite !normalizeText_ascii by ascii. by_evaluation.
Qed.

Example hello_world_wor `{UnicodeAscii} :
  fuzzyMatch (js "Hello World") (js "wor")
  = Some (mkResult (js "Hello World") (tenths 10) [Some [(6, 8)]]).
Proof.
  unfold fuzzyMatch. rewrite !normalizeText_ascii by ascii. by_evaluation.
Qed.

(** C9: for every text, [fuzzyMatch] with the empty query returns a result whose matches
    are the single range [0, -1], whose end precedes its start; the score is
    0.5 whenever the text is not empty and its normal form is not empty.
    All that is asked of the runtime is that [toLowerCase] and
    [normalize("NFD")] map the empty string to itself. *)
Theorem fuzzyMatch_empty_query `{Unicode} (text : list N) :
  toLowerCase [] = [] → normalizeNFD [] = [] →
  ∃ sc, fuzzyMatch text [] = Some (mkResult text sc [Some [(0, -1)]])
        ∧ (normalizeText text ≠ [] → text ≠ [] → sc = tenths 5).
Proof.
  intros Hlower Hnfd.
  assert (Hempty : normalizeText [] = []).
  { unfold normalizeText. by rewrite Hlower, Hnfd. }
  unfold fuzzyMatch. rewrite Hempty.
  unfold matchesFuzzily.
  case_bool_decide as Htext.
  { subst text. eexists. split; [reflexivity|]. done. }
  case_bool_decide as Hnorm.
  { rewrite Hnorm. eexists. split; [reflexivity|]. done. }
  unfold JS.startsWith. rewrite bool_decide_eq_true_2 by apply prefix_nil.
  eexists. split; [reflexivity|]. done.
Qed.

(** The text "abc" on [ucd]. *)
Lemma fuzzyMatch_empty_query_witness :
  ∃ sc, @fuzzyMatch ucd (js "abc") [] = Some (mkResult (js "abc") sc [Some [(0, -1)]])
        ∧ (@normalizeText ucd (js "abc") ≠ [] → js "abc" ≠ [] → sc = tenths 5).
Proof. apply (@fuzzyMatch_empty_query ucd (js "abc")); reflexivity. Defined.

(** The three scores of the empty query. *)
Example fuzzyMatch_empty_query_scores :
  score <$> @fuzzyMatch ucd [] [] = Some (tenths 0)
  ∧ score <$> @fuzzyMatch ucd (js "  ") [] = Some (tenths 1)
  ∧ score <$> @fuzzyMatch ucd (js "abc") [] = Some (tenths 5).
Proof. split_and!; by_evaluation. Qed.

(** ** Indexing, searching and slicing *)

Lemma len_nonneg (s : list N) : 0 ≤ JS.len s.
Proof. unfold JS.len. lia. Qed.

Lemma at_neg (s : list N) (i : Z) : i < 0 → JS.at_ s i = None.
Proof. intros Hi. unfold JS.at_. by rewrite bool_decide_eq_false_2 by lia. Qed.

Lemma at_Some (s : list N) (i : Z) (c : N) :
  JS.at_ s i = Some c → 0 ≤ i < JS.len s.
Proof.
  unfold JS.at_, JS.len. case_bool_decide; [|done].
  intros Hc. apply lookup_lt_Some in Hc. lia.
Qed.

Lemma at_None (s : list N) (i : Z) : 0 ≤ i → JS.at_ s i = None → JS.len s ≤ i.
Proof.
  unfold JS.at_, JS.len. intros Hi. rewrite bool_decide_eq_true_2 by done.
  intros Hc. apply lookup_ge_None in Hc. lia.
Qed.

Lemma at_in_range (s : list N) (i : Z) : 0 ≤ i < JS.len s → is_Some (JS.at_ s i).
Proof.
  unfold JS.at_, JS.len. intros Hi. rewrite bool_decide_eq_true_2 by lia.
  apply lookup_lt_is_Some. lia.
Qed.

(** What the scan returns: [-1], or the first position at or after [k]
    where the pattern starts. *)
Lemma indexOfFrom_found (pat s : list N) (k : Z) :
  0 ≤ k →
  JS.indexOfFrom pat s k = -1
  ∨ (k ≤ JS.indexOfFrom pat s k
     ∧ JS.indexOfFrom pat s k + JS.len pat ≤ k + JS.len s
     ∧ pat `prefix_of` drop (Z.to_nat (JS.indexOfFrom pat s k - k)) s).
Proof.
  revert k. induction s as [|c s IH]; intros k Hk.
  - cbn [JS.indexOfFrom]. case_bool_decide as Hp; [|by left].
    right. replace (Z.to_nat (k - k)) with 0%nat by lia.
    apply prefix_nil_inv in Hp. subst pat. unfold JS.len. simpl.
    split_and!; [lia | lia | done].
  - cbn [JS.indexOfFrom]. case_bool_decide as Hp.
    + right. replace (Z.to_nat (k - k)) with 0%nat by lia.
      pose proof (prefix_length _ _ Hp) as Hlen. unfold JS.len.
      split_and!; [lia | lia | done].
    + destruct (IH (k + 1)) as [Hnone|(Hge & Hle & Hpre)]; [lia | by left |].
      right. unfold JS.len in *. cbn [length].
      split_and!; [lia | lia |].
      replace (Z.to_nat (JS.indexOfFrom pat s (k + 1) - k))
        with (S (Z.to_nat (JS.indexOfFrom pat s (k + 1) - (k + 1)))) by lia.
      done.
Qed.

Lemma indexOfFrom_none (pat s : list N) (k : Z) :
  (length s < length pat)%nat → JS.indexOfFrom pat s k = -1.
Proof.
  revert k. induction s as [|c s IH]; intros k Hlen; cbn [JS.indexOfFrom].
  - rewrite bool_decide_eq_false_2; [done|].
    intros Hp. apply prefix_length in Hp. lia.
  - rewrite bool_decide_eq_false_2.
    + apply IH. simpl in Hlen. lia.
    + intros Hp. apply prefix_length in Hp. lia.
Qed.

(** [indexOf] with a pattern that is not empty: [-1], or a position at or
    after [position] where the pattern lies within the string. *)
Lemma indexOf_found (s pat : list N) (position : Z) :
  pat ≠ [] →
  JS.indexOf s pat position = -1
  ∨ (position ≤ JS.indexOf s pat position
     ∧ 0 ≤ JS.indexOf s pat position
     ∧ JS.indexOf s pat position + JS.len pat ≤ JS.len s
     ∧ pat `prefix_of` drop (Z.to_nat (JS.indexOf s pat position)) s).
Proof.
  intros Hpat. unfold JS.indexOf.
  set (start := Z.min (Z.max position 0) (JS.len s)).
  assert (Hstart : 0 ≤ start ≤ JS.len s) by (pose proof (len_nonneg s); lia).
  destruct (indexOfFrom_found pat (drop (Z.to_nat start) s) start) as [?|(Hge & Hle & Hpre)];
    [lia | by left |].
  right. set (r := JS.indexOfFrom pat (drop (Z.to_nat start) s) start) in *.
  assert (Hlen : JS.len (drop (Z.to_nat start) s) = JS.len s - start).
  { unfold JS.len in *. rewrite length_drop. lia. }
  assert (0 < JS.len pat) by (destruct pat; [done | unfold JS.len; simpl; lia]).
  rewrite drop_drop in Hpre.
  replace (Z.to_nat start + Z.to_nat (r - start))%nat with (Z.to_nat r) in Hpre by lia.
  split_and!; [lia | lia | lia | done].
Qed.

Lemma indexOf_past_end (s pat : list N) (position : Z) :
  pat ≠ [] → JS.len s ≤ position → JS.indexOf s pat position = -1.
Proof.
  intros Hpat Hpos. unfold JS.indexOf. apply indexOfFrom_none.
  pose proof (len_nonneg s). unfold JS.len in *.
  rewrite length_drop. destruct pat; [done|]. simpl. lia.
Qed.

Lemma prefix_drop_at (s : list N) (r : Z) (c : N) (pat : list N) :
  0 ≤ r → c :: pat `prefix_of` drop (Z.to_nat r) s → JS.at_ s r = Some c.
Proof.
  intros Hr [rest Hrest]. unfold JS.at_. rewrite bool_decide_eq_true_2 by done.
  rewrite <- (Nat.add_0_r (Z.to_nat r)), <- lookup_drop, Hrest. done.
Qed.

Lemma toString_nonempty (c : option N) : JS.toString c ≠ [].
Proof. by destruct c. Qed.

(** ** The turns of the smart matcher *)

(** The extension loop stops at the end of the item or at the first
    mismatch, having advanced both indices by the number of matches. *)
Lemma extendChunk_spec (n : nat) (normalizedItem normalizedQuery : list N) (k q k' q' : Z) :
  extendChunk n normalizedItem normalizedQuery k q = (k', q') →
  k ≤ k' ≤ k + Z.of_nat n
  ∧ q' - q = k' - k
  ∧ (∀ i, 0 ≤ i < k' - k → JS.at_ normalizedItem (k + i) = JS.at_ normalizedQuery (q + i))
  ∧ (k' = k + Z.of_nat n ∨ JS.at_ normalizedItem k' ≠ JS.at_ normalizedQuery q').
Proof.
  revert k q. induction n as [|n IH]; intros k q; cbn [extendChunk].
  - intros [= <- <-]. split_and!; [lia | lia | lia | intros; lia | left; lia].
  - case_bool_decide as Hne.
    + intros [= <- <-]. split_and!; [lia | lia | lia | intros; lia | by right].
    + intros Hrec.
      destruct (IH _ _ Hrec) as ((Hk1 & Hk2) & Hq & Hall & Hstop).
      split_and!; [lia | lia | lia | | destruct Hstop; [left; lia | by right]].
      intros i Hi. destruct (decide (i = 0)) as [->|Hi0].
      * by rewrite !Z.add_0_r.
      * replace (k + i) with (k + 1 + (i - 1)) by lia.
        replace (q + i) with (q + 1 + (i - 1)) by lia. apply Hall. lia.
Qed.

(** What a turn does to the loop variables, from a state in which the query
    index lies within the query. *)
Lemma smartTurn_cases (normalizedItem normalizedQuery : list N) (q c : Z) :
  0 ≤ q ≤ JS.len normalizedQuery →
  match smartTurn normalizedItem normalizedQuery q c with
  | Break => True
  | Continue c' => c' = c + 1 ∧ c + 1 < JS.len normalizedItem
  | Pushed (a, b) q' =>
      c < a ∧ 0 ≤ a ∧ a - 1 ≤ b < JS.len normalizedItem
      ∧ acceptsChunkStart normalizedItem normalizedQuery q a = true
      ∧ q ≤ q' ≤ JS.len normalizedQuery
      ∧ q' - q = b + 1 - a
      ∧ (q' = JS.len normalizedQuery ∨ a ≤ b)
      ∧ (b + 1 = JS.len normalizedItem
         ∨ JS.at_ normalizedItem (b + 1) ≠ JS.at_ normalizedQuery q')
  end.
Proof.
  intros Hq. unfold smartTurn.
  set (pat := JS.toString (JS.at_ normalizedQuery q)).
  destruct (indexOf_found normalizedItem pat (c + 1)) as [Hnone|(Hpos & Hidx0 & Hend & Hpre)];
    [apply toString_nonempty | by rewrite Hnone |].
  set (idx := JS.indexOf normalizedItem pat (c + 1)) in *.
  rewrite bool_decide_eq_false_2 by lia.
  assert (Hlt : idx < JS.len normalizedItem).
  { assert (0 < JS.len pat); [|lia].
    pose proof (toString_nonempty (JS.at_ normalizedQuery q)). fold pat in H.
    destruct pat; [done | unfold JS.len; simpl; lia]. }
  destruct (acceptsChunkStart _ _ _ _) eqn:Hacc; [|lia].
  destruct (extendChunk _ _ _ _ _) as [k' q'] eqn:Hext.
  apply extendChunk_spec in Hext as ((Hk1 & Hk2) & Hqq & Hall & Hstop).
  rewrite Z2Nat.id in Hk2, Hstop by lia.
  assert (Hq' : q' ≤ JS.len normalizedQuery).
  { destruct (decide (k' = idx)) as [->|Hne]; [lia|].
    specialize (Hall (k' - idx - 1) ltac:(lia)).
    destruct (at_in_range normalizedItem (idx + (k' - idx - 1)) ltac:(lia)) as [ch Hch].
    rewrite Hch in Hall. symmetry in Hall. apply at_Some in Hall. lia. }
  replace (k' - 1 + 1) with k' by lia.
  split_and!; try lia; [done | | destruct Hstop; [left; lia | by right]].
  destruct (JS.at_ normalizedQuery q) as [ch|] eqn:Hch.
  - right. subst pat. simpl in Hpre. apply prefix_drop_at in Hpre; [|done].
    destruct Hstop as [->|Hne]; [lia|].
    destruct (decide (k' = idx)) as [->|?]; [|lia].
    replace q' with q in Hne by lia. congruence.
  - left. apply at_None in Hch; lia.
Qed.

(** ** Termination of the smart matcher *)


Lemma smartReach_bounds (normalizedItem normalizedQuery : list N) (q c : Z) :
  smartReach normalizedItem normalizedQuery q c →
  0 ≤ q ≤ JS.len normalizedQuery ∧ -2 ≤ c < JS.len normalizedItem.
Proof.
  induction 1 as [|q c c' _ [IHq IHc] Hturn|q c [a b] q' _ [IHq IHc] Hturn Hq'].
  - pose proof (len_nonneg normalizedItem). pose proof (len_nonneg normalizedQuery). lia.
  - pose proof (smartTurn_cases normalizedItem normalizedQuery q c IHq) as Hcases.
    rewrite Hturn in Hcases. lia.
  - pose proof (smartTurn_cases normalizedItem normalizedQuery q c IHq) as Hcases.
    rewrite Hturn in Hcases. simpl. lia.
Qed.

(** A turn that does not leave the loop moves [chunkLastIdx], and with it
    the position [chunkLastIdx + 1] where the next search starts, forward. *)
Lemma smartTurn_progress (normalizedItem normalizedQuery : list N) (q c : Z) :
  0 ≤ q ≤ JS.len normalizedQuery →
  match smartTurn normalizedItem normalizedQuery q c with
  | Break => True
  | Continue c' => c' = c + 1
  | Pushed chunk q' => q' = JS.len normalizedQuery ∨ c < chunk.2
  end.
Proof.
  intros Hq. pose proof (smartTurn_cases normalizedItem normalizedQuery q c Hq) as Hcases.
  destruct (smartTurn _ _ _ _) as [|c'|[a b] q']; [done | lia | simpl; lia].
Qed.

(** From a state within bounds, as many turns as there are positions after
    [chunkLastIdx] are enough. *)
Lemma smartLoop_enough (fuel : nat) (normalizedItem normalizedQuery : list N)
    (indices : list (Z * Z)) (q c : Z) :
  0 ≤ q ≤ JS.len normalizedQuery →
  c < JS.len normalizedItem →
  (Z.to_nat (JS.len normalizedItem - c) ≤ fuel)%nat →
  is_Some (smartLoop fuel normalizedItem normalizedQuery indices q c).
Proof.
  revert indices q c. induction fuel as [|fuel IH]; intros indices q c Hq Hc Hfuel; [lia|].
  cbn [smartLoop].
  pose proof (smartTurn_cases normalizedItem normalizedQuery q c Hq) as Hcases.
  destruct (smartTurn _ _ _ _) as [|c'|[a b] q'].
  - done.
  - apply IH; lia.
  - case_bool_decide; [done|]. apply IH; simpl; lia.
Qed.

(** Turns beyond those the loop takes change nothing. *)
Lemma smartLoop_more (fuel extra : nat) (normalizedItem normalizedQuery : list N)
    (indices : list (Z * Z)) (q c : Z) :
  is_Some (smartLoop fuel normalizedItem normalizedQuery indices q c) →
  smartLoop (fuel + extra) normalizedItem normalizedQuery indices q c
  = smartLoop fuel normalizedItem normalizedQuery indices q c.
Proof.
  revert indices q c. induction fuel as [|fuel IH]; intros indices q c Hsome.
  - by destruct Hsome.
  - cbn [smartLoop Nat.add] in *.
    destruct (smartTurn _ _ _ _) as [|c'|chunk q']; [done | by apply IH |].
    case_bool_decide; [done | by apply IH].
Qed.

(** The loop, started as [smartFuzzyMatch] starts it, leaves within
    [length + 2] turns. *)
Lemma smartLoop_start (normalizedItem normalizedQuery : list N) :
  is_Some (smartLoop (length normalizedItem + 2) normalizedItem normalizedQuery [] 0 (-2)).
Proof.
  pose proof (len_nonneg normalizedItem). pose proof (len_nonneg normalizedQuery).
  apply smartLoop_enough; [lia | lia | unfold JS.len; lia].
Qed.

(** C10: the smart matcher terminates on every pair of strings.  Its loop
    leaves, by [return] or [break], within [length + 2] turns, where [length]
    is the length of the item, and allowing more turns changes nothing; in
    every state the loop reaches, a turn either leaves the loop or moves the
    position where the next search starts strictly forward (by one when the
    occurrence is rejected, past the chunk when it is accepted). *)
Theorem smartFuzzyMatch_terminates (normalizedItem normalizedQuery : list N) :
  is_Some (smartLoop (length normalizedItem + 2) normalizedItem normalizedQuery [] 0 (-2))
  ∧ (∀ extra : nat,
       smartLoop (length normalizedItem + 2 + extra) normalizedItem normalizedQuery [] 0 (-2)
       = smartLoop (length normalizedItem + 2) normalizedItem normalizedQuery [] 0 (-2))
  ∧ (∀ q c, smartReach normalizedItem normalizedQuery q c →
       match smartTurn normalizedItem normalizedQuery q c with
       | Break => True
       | Continue c' => c + 1 < c' + 1
       | Pushed chunk q' => q' = JS.len normalizedQuery ∨ c + 1 < chunk.2 + 1
       end).
Proof.
  split_and!.
  - apply smartLoop_start.
  - intros extra. apply smartLoop_more, smartLoop_start.
  - intros q c Hreach. apply smartReach_bounds in Hreach as [Hq _].
    pose proof (smartTurn_progress normalizedItem normalizedQuery q c Hq) as Hprog.
    destruct (smartTurn _ _ _ _) as [|c'|chunk q']; [done | lia | lia].
Qed.

(** The bound is reached: for "xaa" and "ab" the loop takes five turns. *)
Example smartLoop_five_turns :
  smartLoop 4 (js "xaa") (js "ab") [] 0 (-2) = None
  ∧ smartLoop 5 (js "xaa") (js "ab") [] 0 (-2) = Some None.
Proof. by vm_compute. Qed.

(** [smartFuzzyMatch] is the result of the loop, however many turns beyond
    [length + 2] are allowed. *)
Lemma smartFuzzyMatch_loop (normalizedItem normalizedQuery : list N) (extra : nat) :
  smartLoop (smartFuel normalizedItem + extra) normalizedItem normalizedQuery [] 0 (-2)
  = Some (smartFuzzyMatch normalizedItem normalizedQuery).
Proof.
  pose proof (smartLoop_start normalizedItem normalizedQuery) as Hsome.
  unfold smartFuzzyMatch, smartFuel. rewrite smartLoop_more by done.
  by destruct Hsome as [r ->].
Qed.

(** ** The chunks of the smart matcher *)

Lemma slice_at (s : list N) (a m i : Z) :
  0 ≤ a → a + m ≤ JS.len s → 0 ≤ i < m →
  JS.at_ (JS.slice s a (a + m)) i = JS.at_ s (a + i).
Proof.
  intros Ha Hm Hi. unfold JS.slice.
  rewrite !bool_decide_eq_false_2 by lia.
  rewrite !Z.min_l by lia.
  unfold JS.at_. rewrite !bool_decide_eq_true_2 by lia.
  rewrite lookup_take_lt by lia. rewrite lookup_drop. f_equal. lia.
Qed.

(** A chunk start accepted in the middle of a word: the lookahead compared
    [min(3, queryCharsLeft, itemCharsLeft)] characters and found them equal. *)
Lemma accepts_lookahead (normalizedItem normalizedQuery : list N) (q a : Z) :
  0 ≤ q ≤ JS.len normalizedQuery → 0 ≤ a < JS.len normalizedItem →
  acceptsChunkStart normalizedItem normalizedQuery q a = true →
  a = 0 ∨ isValidWordBoundary (JS.at_ normalizedItem (a - 1)) = true
  ∨ ∀ i, 0 ≤ i < Z.min 3 (Z.min (JS.len normalizedQuery - q) (JS.len normalizedItem - a)) →
         JS.at_ normalizedItem (a + i) = JS.at_ normalizedQuery (q + i).
Proof.
  intros Hq Ha. unfold acceptsChunkStart.
  case_bool_decide as H0; [by left|].
  destruct (isValidWordBoundary _); [by (right; left)|]. simpl.
  intros Heq. apply bool_decide_eq_true in Heq. right. right.
  set (m := Z.min 3 (Z.min (JS.len normalizedQuery - q) (JS.len normalizedItem - a))) in *.
  intros i Hi.
  rewrite <- (slice_at normalizedItem a m i), <- (slice_at normalizedQuery q m i) by lia.
  by rewrite Heq.
Qed.


(** A pushed chunk that does not pass and does not finish the query runs to
    the end of the item. *)
Lemma pushed_short (normalizedItem normalizedQuery : list N) (q c a b q' : Z) :
  0 ≤ q ≤ JS.len normalizedQuery →
  smartTurn normalizedItem normalizedQuery q c = Pushed (a, b) q' →
  q' ≠ JS.len normalizedQuery →
  anchoredOrLong normalizedItem (a, b) ∨ b + 1 = JS.len normalizedItem.
Proof.
  intros Hq Hturn Hq'.
  pose proof (smartTurn_cases normalizedItem normalizedQuery q c Hq) as Hcases.
  rewrite Hturn in Hcases.
  destruct Hcases as (Hca & Ha & Hb & Hacc & Hqq & Hlen & Hfin & Hstop).
  destruct Hfin as [?|Hab]; [done|].
  apply accepts_lookahead in Hacc as [H0|[Hbd|Hall]]; [| | | lia | lia].
  - left. by left.
  - left. right. by left.
  - destruct (decide (b + 1 = JS.len normalizedItem)) as [Hend|Hmid]; [by right|].
    destruct Hstop as [?|Hne]; [done|].
    destruct (decide (3 ≤ b - a + 1)) as [H3|H3]; [left; right; by right|].
    exfalso. apply Hne.
    replace (b + 1) with (a + (b + 1 - a)) by lia.
    replace q' with (q + (b + 1 - a)) by lia.
    apply Hall. lia.
Qed.

(** Once [chunkLastIdx] is the last index and query characters are left,
    the loop returns no match. *)
Lemma smartLoop_at_end (fuel : nat) (normalizedItem normalizedQuery : list N)
    (indices : list (Z * Z)) (q c : Z) (r : Qc * list (Z * Z)) :
  0 ≤ q < JS.len normalizedQuery → JS.len normalizedItem ≤ c + 1 →
  smartLoop fuel normalizedItem normalizedQuery indices q c ≠ Some (Some r).
Proof.
  intros Hq Hc. destruct fuel as [|fuel]; [done|]. cbn [smartLoop]. unfold smartTurn.
  rewrite indexOf_past_end; [done | apply toString_nonempty | lia].
Qed.

(** The chunks of a result: all but the last pass. *)
Lemma smartLoop_front (fuel : nat) (normalizedItem normalizedQuery : list N)
    (indices : list (Z * Z)) (q c : Z) (sc : Qc) (chunks : list (Z * Z)) :
  0 ≤ q ≤ JS.len normalizedQuery →
  Forall (anchoredOrLong normalizedItem) indices →
  smartLoop fuel normalizedItem normalizedQuery indices q c = Some (Some (sc, chunks)) →
  ∃ front last, chunks = front ++ [last] ∧ Forall (anchoredOrLong normalizedItem) front.
Proof.
  revert indices q c. induction fuel as [|fuel IH]; intros indices q c Hq Hok; [done|].
  cbn [smartLoop].
  pose proof (smartTurn_cases normalizedItem normalizedQuery q c Hq) as Hcases.
  destruct (smartTurn _ _ _ _) as [|c'|[a b] q'] eqn:Hturn; [done | by apply IH |].
  case_bool_decide as Hq'.
  - intros [= _ <-]. by exists indices, (a, b).
  - destruct (pushed_short _ _ _ _ _ _ _ Hq Hturn Hq') as [Hgood|Hend].
    + apply IH; [lia|]. apply Forall_app. split; [done | by constructor].
    + intros Hloop. exfalso. revert Hloop. apply smartLoop_at_end; simpl; lia.
Qed.

(** C1, as amended: in every result of the smart matcher, every chunk other
    than the last starts at index 0, or right after a word-boundary character,
    or has at least three characters.  A single character outside a word
    boundary is therefore matched only as the last chunk of a result. *)
Theorem smartFuzzyMatch_chunks (normalizedItem normalizedQuery : list N)
    (sc : Qc) (chunks : list (Z * Z)) :
  smartFuzzyMatch normalizedItem normalizedQuery = Some (sc, chunks) →
  ∃ front last,
    chunks = front ++ [last]
    ∧ Forall (λ chunk,
                chunk.1 = 0
                ∨ isValidWordBoundary (JS.at_ normalizedItem (chunk.1 - 1)) = true
                ∨ 3 ≤ chunk.2 - chunk.1 + 1) front.
Proof.
  intros Hmatch.
  pose proof (smartFuzzyMatch_loop normalizedItem normalizedQuery 0) as Hloop.
  rewrite Hmatch in Hloop.
  apply smartLoop_front in Hloop; [done | pose proof (len_nonneg normalizedQuery); lia | done].
Qed.

(** "foobar bazqux qed" and "fooazqq": the chunks "foo", "azq" and "q". *)
Lemma smartFuzzyMatch_chunks_witness :
  ∃ front last,
    [(0, 2); (8, 10); (14, 14)] = front ++ [last]
    ∧ Forall (λ chunk,
                chunk.1 = 0
                ∨ isValidWordBoundary (JS.at_ (js "foobar bazqux qed") (chunk.1 - 1)) = true
                ∨ 3 ≤ chunk.2 - chunk.1 + 1) front.
Proof.
  apply (smartFuzzyMatch_chunks (js "foobar bazqux qed") (js "fooazqq") (tenths 36)).
  by_evaluation.
Defined.

(** C1, as stated, fails: for "hello world" and "hd" the smart matcher
    returns the chunks [0,0] and [10,10]; the second is the single character
    "d", at index 10, after the letter "l". *)
Lemma smartFuzzyMatch_isolated_letter :
  smartFuzzyMatch (js "hello world") (js "hd") = Some (tenths 40, [(0, 0); (10, 10)])
  ∧ JS.at_ (js "hello world") (10 - 1) = Some 0x6C%N
  ∧ isValidWordBoundary (Some 0x6C%N) = false
  ∧ 10 ≠ 0.
Proof.
  split_and!; [by_evaluation|done|done|done].
Qed.

(** ** Order of the highlight ranges *)


Lemma StronglySorted_weaken {A} (R1 R2 : A → A → Prop) (l : list A) :
  (∀ x y, R1 x y → R2 x y) → StronglySorted R1 l → StronglySorted R2 l.
Proof.
  intros HR. induction 1 as [|x l Hl IH Hx]; constructor; [done|].
  eapply Forall_impl; [exact Hx | auto].
Qed.

Lemma liesBefore_snoc (indices : list (Z * Z)) (chunk : Z * Z) (bound : Z) :
  StronglySorted liesBefore indices →
  Forall (λ r, r.1 ≤ r.2 ∧ r.2 ≤ bound) indices →
  bound < chunk.1 →
  StronglySorted liesBefore (indices ++ [chunk]).
Proof.
  intros Hsorted Hbound Hchunk. apply StronglySorted_app_2; [|done|repeat constructor].
  intros r1 r2 Hr1 Hr2. apply list_elem_of_singleton in Hr2 as ->.
  rewrite Forall_forall in Hbound. apply Hbound in Hr1. unfold liesBefore. lia.
Qed.

Lemma smartLoop_liesBefore (fuel : nat) (normalizedItem normalizedQuery : list N)
    (indices : list (Z * Z)) (q c : Z) (sc : Qc) (chunks : list (Z * Z)) :
  0 ≤ q ≤ JS.len normalizedQuery →
  StronglySorted liesBefore indices →
  Forall (λ r, r.1 ≤ r.2 ∧ r.2 ≤ c) indices →
  smartLoop fuel normalizedItem normalizedQuery indices q c = Some (Some (sc, chunks)) →
  StronglySorted liesBefore chunks.
Proof.
  revert indices q c. induction fuel as [|fuel IH]; intros indices q c Hq Hsorted Hbound; [done|].
  cbn [smartLoop].
  pose proof (smartTurn_cases normalizedItem normalizedQuery q c Hq) as Hcases.
  destruct (smartTurn _ _ _ _) as [|c'|[a b] q']; [done | |].
  - apply IH; [done | done |].
    eapply Forall_impl; [exact Hbound|]. intros r Hr. simpl in Hr. lia.
  - destruct Hcases as (Hca & Ha & Hb & _ & Hqq & _ & Hfin & _).
    assert (Hsnoc : StronglySorted liesBefore (indices ++ [(a, b)])).
    { apply (liesBefore_snoc indices (a, b) c); done. }
    case_bool_decide as Hq'; [by intros [= _ <-]|].
    apply IH; [lia | done |]. simpl.
    apply Forall_app. split; [|repeat constructor; simpl; lia].
    eapply Forall_impl; [exact Hbound|]. intros r Hr. simpl in Hr. lia.
Qed.

Lemma smartFuzzyMatch_liesBefore (normalizedItem normalizedQuery : list N)
    (sc : Qc) (chunks : list (Z * Z)) :
  smartFuzzyMatch normalizedItem normalizedQuery = Some (sc, chunks) →
  StronglySorted liesBefore chunks.
Proof.
  intros Hmatch.
  pose proof (smartFuzzyMatch_loop normalizedItem normalizedQuery 0) as Hloop.
  rewrite Hmatch in Hloop.
  apply smartLoop_liesBefore in Hloop;
    [done | pose proof (len_nonneg normalizedQuery); lia | constructor | constructor].
Qed.


Lemma aggressiveLoop_liesBefore (n : nat) (normalizedItem normalizedQuery : list N)
    (itemIdx q : Z) (indices : list (Z * Z)) (cf cl : Z) (sc : Qc) (chunks : list (Z * Z)) :
  0 ≤ itemIdx →
  aggressiveInv itemIdx indices cf cl →
  aggressiveLoop n normalizedItem normalizedQuery itemIdx q indices cf cl = Some (sc, chunks) →
  StronglySorted liesBefore chunks.
Proof.
  revert itemIdx q indices cf cl.
  induction n as [|n IH]; intros itemIdx q indices cf cl Hidx Hinv; [done|].
  cbn [aggressiveLoop]. case_bool_decide as Hchar.
  - set (indices1 := if bool_decide (itemIdx ≠ cl + 1)
                     then if bool_decide (0 ≤ cf) then indices ++ [(cf, cl)] else indices
                     else indices).
    set (cf1 := if bool_decide (itemIdx ≠ cl + 1) then itemIdx else cf).
    assert (Hinv1 : aggressiveInv (itemIdx + 1) indices1 cf1 itemIdx).
    { subst indices1 cf1. destruct Hinv as [(-> & -> & ->)|(Hcf & Hcl & Hsorted & Hbound)].
      - rewrite bool_decide_eq_true_2 by lia. rewrite bool_decide_eq_false_2 by lia.
        right. split_and!; [lia | lia | lia | constructor | constructor].
      - case_bool_decide as Hnew.
        + rewrite bool_decide_eq_true_2 by lia. right. split_and!; [lia | lia | lia | |].
          * apply (liesBefore_snoc indices (cf, cl) (cf - 1)); [done | done | simpl; lia].
          * apply Forall_app. split; [|repeat constructor; simpl; lia].
            eapply Forall_impl; [exact Hbound|]. intros r Hr. simpl in Hr. lia.
        + right. split_and!; [lia | lia | lia | done | done]. }
    case_bool_decide as Hq.
    + intros [= _ <-].
      destruct Hinv1 as [(? & ? & _)|(Hcf & Hcl & Hsorted & Hbound)]; [lia|].
      apply (liesBefore_snoc indices1 (cf1, itemIdx) (cf1 - 1)); [done | done | simpl; lia].
    + apply IH; [lia | done].
  - apply IH; [lia|].
    destruct Hinv as [?|(Hcf & Hcl & Hsorted & Hbound)]; [by left|].
    right. split_and!; [lia | lia | lia | done | done].
Qed.

Lemma aggressiveFuzzyMatch_liesBefore (normalizedItem normalizedQuery : list N)
    (sc : Qc) (chunks : list (Z * Z)) :
  aggressiveFuzzyMatch normalizedItem normalizedQuery = Some (sc, chunks) →
  StronglySorted liesBefore chunks.
Proof.
  apply aggressiveLoop_liesBefore; [lia | by left].
Qed.

Lemma multiWordRanges_sorted (normalizedItem : list N) (queryWords : list (list N)) :
  StronglySorted startsFirst (multiWordRanges normalizedItem queryWords).
Proof.
  unfold multiWordRanges. apply sort_sorted; unfold startsFirst, sortRangeTuple.
  - intros x y z. lia.
  - intros x y Hpos. apply bool_decide_eq_false in Hpos. lia.
  - intros x y Hpos. apply bool_decide_eq_true in Hpos. lia.
Qed.

Lemma liesBefore_startsFirst (ranges : list (Z * Z)) :
  StronglySorted liesBefore ranges → StronglySorted startsFirst ranges.
Proof. apply StronglySorted_weaken. unfold liesBefore, startsFirst. lia. Qed.

Lemma liesBefore_single (r : Z * Z) : StronglySorted liesBefore [r].
Proof. repeat constructor. Qed.

(** C4, as amended: in every match result the highlight ranges are ordered by
    ascending start index; they are pairwise non-overlapping, each range
    ending before every later one starts, in every result except that of
    the multi-word tier, whose ranges are the first occurrences of the query
    words and can overlap or coincide. *)
Theorem matchesFuzzily_ranges (item normalizedItem : list N) (itemWords : gset (list N))
    (query normalizedQuery : list N) (queryWords : list (list N))
    (strategy : FuzzySearchStrategy) (sc : Qc) (ranges : list (Z * Z)) :
  matchesFuzzily item normalizedItem itemWords query normalizedQuery queryWords strategy
  = Some (sc, ranges) →
  StronglySorted (λ r1 r2, r1.1 ≤ r2.1) ranges
  ∧ (StronglySorted (λ r1 r2, r1.1 < r2.1 ∧ r1.2 < r2.1) ranges
     ∨ (¬ earlierTierApplies item normalizedItem query normalizedQuery
        ∧ (1 < length queryWords)%nat
        ∧ (∀ w, w ∈ queryWords → w ∈ itemWords)
        ∧ ranges = multiWordRanges normalizedItem queryWords)).
Proof.
  intros Hmatch.
  enough (Hcases : StronglySorted liesBefore ranges
                   ∨ (¬ earlierTierApplies item normalizedItem query normalizedQuery
                      ∧ (1 < length queryWords)%nat
                      ∧ (∀ w, w ∈ queryWords → w ∈ itemWords)
                      ∧ ranges = multiWordRanges normalizedItem queryWords)).
  { split; [|exact Hcases].
    destruct Hcases as [Hsep|(_ & _ & _ & ->)];
      [by apply liesBefore_startsFirst | apply multiWordRanges_sorted]. }
  revert Hmatch. unfold matchesFuzzily, JS.startsWith.
  case_bool_decide as H1; [intros [= _ <-]; left; apply liesBefore_single|].
  case_bool_decide as H2; [intros [= _ <-]; left; apply liesBefore_single|].
  case_bool_decide as H3; [intros [= _ <-]; left; apply liesBefore_single|].
  destruct (_ && _) eqn:H4; [intros [= _ <-]; left; apply liesBefore_single|].
  destruct (bool_decide (-1 < JS.indexOf normalizedItem _ _) && _) eqn:H5;
    [intros [= _ <-]; left; apply liesBefore_single|].
  destruct (bool_decide (1 < length queryWords)%nat && _) eqn:H6.
  { intros [= _ <-]. right.
    apply andb_true_iff in H6 as [Hn Hevery]. apply bool_decide_eq_true in Hn.
    split_and!; [| done | | done].
    - unfold earlierTierApplies. intros [?|[?|[?|[[Hi Hb]|[Hi Hb]]]]]; try done.
      + by rewrite (bool_decide_eq_true_2 _ Hi), Hb in H4.
      + by rewrite (bool_decide_eq_true_2 _ Hi), Hb in H5.
    - intros w Hw. rewrite forallb_forall in Hevery.
      apply list_elem_of_In, Hevery in Hw. by apply bool_decide_eq_true in Hw. }
  destruct (bool_decide (-1 < JS.indexOf normalizedItem normalizedQuery 0));
    [intros [= _ <-]; left; apply liesBefore_single|].
  destruct strategy; [done | |]; intros Hfuzzy; left.
  - by eapply smartFuzzyMatch_liesBefore.
  - by eapply aggressiveFuzzyMatch_liesBefore.
Qed.

(** The aggressive match of "hwl" in "Hello World". *)
Lemma matchesFuzzily_ranges_witness :
  StronglySorted (λ r1 r2 : Z * Z, r1.1 ≤ r2.1) [(0, 0); (6, 6); (9, 9)]
  ∧ (StronglySorted (λ r1 r2 : Z * Z, r1.1 < r2.1 ∧ r1.2 < r2.1) [(0, 0); (6, 6); (9, 9)]
     ∨ (¬ earlierTierApplies (js "Hello World") (js "hello world") (js "hwl") (js "hwl")
        ∧ (1 < length [js "hwl"])%nat
        ∧ (∀ w, w ∈ [js "hwl"] → w ∈ ({[ js "hello"; js "world" ]} : gset (list N)))
        ∧ [(0, 0); (6, 6); (9, 9)] = multiWordRanges (js "hello world") [js "hwl"])).
Proof.
  apply (matchesFuzzily_ranges (js "Hello World") (js "hello world")
           {[ js "hello"; js "world" ]} (js "hwl") (js "hwl") [js "hwl"] aggressive
           (tenths 44)).
  by_evaluation.
Defined.

(** C4, as stated, fails: for the text "going go" and the query "go going"
    the multi-word tier returns the ranges [0,1] and [0,4], which overlap. *)
Lemma multi_word_ranges_overlap :
  @fuzzyMatch ucd (js "going go") (js "go going")
  = Some (mkResult (js "going go") (tenths 19) [Some [(0, 1); (0, 4)]])
  ∧ matchesFuzzily (js "going go") (js "going go") {[ js "going"; js "go" ]}
                   (js "go going") (js "go going") [js "go"; js "going"] smart
    = Some (tenths 19, [(0, 1); (0, 4)])
  ∧ ¬ StronglySorted (λ r1 r2 : Z * Z, r1.1 < r2.1 ∧ r1.2 < r2.1) [(0, 1); (0, 4)].
Proof.
  split_and!.
  - by_evaluation.
  - by_evaluation.
  - intros Hsorted. apply StronglySorted_inv in Hsorted as [_ Hall].
    apply Forall_cons in Hall as [[Hlt _] _]. simpl in Hlt. lia.
Qed.

(** ** Scores of the fuzzy matchers *)

Lemma chunkPenalty_nonneg (isBoundary : option N → bool) (normalizedItem : list N)
    (chunk : Z * Z) :
  (tenths 0 ≤ Spec.chunkPenalty isBoundary normalizedItem chunk)%Qc.
Proof.
  unfold Spec.chunkPenalty. repeat case_match; by apply tenths_le.
Qed.

Lemma runScore_least (isBoundary : option N → bool) (indices : list (Z * Z))
    (normalizedItem : list N) :
  (tenths 20 ≤ Spec.runScore isBoundary indices normalizedItem)%Qc.
Proof.
  unfold Spec.runScore.
  assert (Hsum : (tenths 0 ≤ foldr Qcplus (tenths 0)
                              (Spec.chunkPenalty isBoundary normalizedItem <$> indices))%Qc).
  { induction indices as [|chunk indices IH]; cbn [fmap list_fmap foldr].
    - apply Qcle_refl.
    - replace (tenths 0) with (tenths 0 + tenths 0)%Qc at 1 by qc_eq.
      apply Qcplus_le_compat; [apply chunkPenalty_nonneg | exact IH]. }
  replace (tenths 20) with (tenths 20 + tenths 0)%Qc at 1 by qc_eq.
  apply Qcplus_le_compat; [apply Qcle_refl | exact Hsum].
Qed.

Lemma smartLoop_scored (fuel : nat) (normalizedItem normalizedQuery : list N)
    (indices : list (Z * Z)) (q c : Z) (r : Qc * list (Z * Z)) :
  smartLoop fuel normalizedItem normalizedQuery indices q c = Some (Some r) →
  r = scoreConsecutiveLetters r.2 normalizedItem.
Proof.
  revert indices q c. induction fuel as [|fuel IH]; intros indices q c; [done|].
  cbn [smartLoop].
  destruct (smartTurn _ _ _ _) as [|c'|chunk q']; [done | apply IH |].
  case_bool_decide; [by intros [= <-] | apply IH].
Qed.

Lemma aggressiveLoop_scored (n : nat) (normalizedItem normalizedQuery : list N)
    (itemIdx q : Z) (indices : list (Z * Z)) (cf cl : Z) (r : Qc * list (Z * Z)) :
  aggressiveLoop n normalizedItem normalizedQuery itemIdx q indices cf cl = Some r →
  r = scoreConsecutiveLetters r.2 normalizedItem.
Proof.
  revert itemIdx q indices cf cl. induction n as [|n IH]; intros itemIdx q indices cf cl; [done|].
  cbn [aggressiveLoop]. case_bool_decide; [|apply IH].
  case_bool_decide; [by intros [= <-] | apply IH].
Qed.

(** A fuzzy match never scores below 2. *)
Lemma fuzzy_score_least (strategy : FuzzySearchStrategy)
    (normalizedItem normalizedQuery : list N) (r : Qc * list (Z * Z)) :
  match strategy with
  | aggressive => aggressiveFuzzyMatch normalizedItem normalizedQuery
  | smart => smartFuzzyMatch normalizedItem normalizedQuery
  | off => None
  end = Some r →
  (tenths 20 ≤ r.1)%Qc.
Proof.
  intros Hmatch.
  assert (Hscored : r = scoreConsecutiveLetters r.2 normalizedItem).
  { destruct strategy; [done | |].
    - pose proof (smartFuzzyMatch_loop normalizedItem normalizedQuery 0) as Hloop.
      rewrite Hmatch in Hloop. by apply smartLoop_scored in Hloop.
    - by apply aggressiveLoop_scored in Hmatch. }
  rewrite Hscored. rewrite scoreConsecutiveLetters_runScore. apply runScore_least.
Qed.

(** ** The exact-case contains tier at index 0 *)

(** When the exact-case search finds the query at index 0, the tier of score
    0.9 is passed over: the character "before" the match is [item[-1]], which
    is [undefined] and not a boundary.  Whatever the later tiers return, the
    score is not 0.9. *)
Lemma exact_contains_skips_index_zero (item normalizedItem : list N)
    (itemWords : gset (list N)) (query normalizedQuery : list N)
    (queryWords : list (list N)) (strategy : FuzzySearchStrategy) :
  item ≠ query → normalizedItem ≠ normalizedQuery →
  ¬ normalizedQuery `prefix_of` normalizedItem →
  JS.indexOf item query 0 = 0 →
  fst <$> matchesFuzzily item normalizedItem itemWords query normalizedQuery
                         queryWords strategy
  ≠ Some (tenths 9).
Proof.
  intros H1 H2 H3 Hidx. unfold matchesFuzzily, JS.startsWith.
  rewrite !bool_decide_eq_false_2 by done.
  rewrite Hidx. rewrite (at_neg item (0 - 1)) by lia. rewrite andb_false_r.
  destruct (_ && _); [intros Heq; apply (inj Some) in Heq; by apply tenths_inj in Heq|].
  destruct (_ && _).
  { cbn [fmap option_fmap option_map fst]. rewrite multi_word_number.
    intros Heq. apply (inj Some), tenths_inj in Heq. lia. }
  case_bool_decide; [intros Heq; apply (inj Some) in Heq; by apply tenths_inj in Heq|].
  destruct (match strategy with off => _ | _ => _ end) as [r|] eqn:Hfuzzy; [|done].
  apply fuzzy_score_least in Hfuzzy. cbn [fmap option_fmap option_map].
  intros Heq. apply (inj Some) in Heq. rewrite Heq in Hfuzzy.
  revert Hfuzzy. by vm_compute.
Qed.


(** C3 fails on the code.  The text ΑΣΑ starts with the query ΑΣ, so the
    exact-case search finds it at index 0.  The capital sigma that ends the
    query is lowercased to a final sigma and the one inside the text is not,
    so the normal form of the text does not start with the normal form of
    the query and no earlier tier applies.  The tier of score 0.9 is passed
    over and [fuzzyMatch] returns no match at all. *)
Theorem exact_prefix_unmatched :
  JS.indexOf [Alpha; Sigma; Alpha] [Alpha; Sigma] 0 = 0
  ∧ @normalizeText ucd [Alpha; Sigma; Alpha] = [alpha; sigma; alpha]
  ∧ @normalizeText ucd [Alpha; Sigma] = [alpha; finalSigma]
  ∧ JS.startsWith [alpha; sigma; alpha] [alpha; finalSigma] = false
  ∧ @fuzzyMatch ucd [Alpha; Sigma; Alpha] [Alpha; Sigma] = None
  ∧ @createFuzzySearch ucd _ _ [[Alpha; Sigma; Alpha]] noOptions [Alpha; Sigma] = [].
Proof. by vm_compute. Qed.

(** ** The normalizer applied twice *)

Lemma trimStart_Forall (P : N → Prop) (s : list N) : Forall P s → Forall P (JS.trimStart s).
Proof.
  induction 1 as [|c s Hc Hs IH]; cbn [JS.trimStart]; [done|].
  destruct (JS.isWhiteSpace c); [done | by constructor].
Qed.

Lemma trim_Forall (P : N → Prop) (s : list N) : Forall P s → Forall P (JS.trim s).
Proof.
  intros Hs. unfold JS.trim, JS.trimEnd.
  by apply Forall_reverse, trimStart_Forall, Forall_reverse, trimStart_Forall.
Qed.

Lemma trimStart_suffix (s : list N) : JS.trimStart s `suffix_of` s.
Proof.
  induction s as [|c s IH]; cbn [JS.trimStart]; [done|].
  destruct (JS.isWhiteSpace c); [by apply suffix_cons_r | done].
Qed.


Lemma trimStart_clean (s : list N) : startsClean (JS.trimStart s).
Proof.
  induction s as [|c s IH]; cbn [JS.trimStart]; [done|].
  by destruct (JS.isWhiteSpace c) eqn:Hc.
Qed.

Lemma trimStart_fixed (s : list N) : startsClean s → JS.trimStart s = s.
Proof. destruct s as [|c s]; [done|]. simpl. by intros ->. Qed.

Lemma startsClean_prefix (s t : list N) : s `prefix_of` t → startsClean t → startsClean s.
Proof.
  intros [k ->]. by destruct s.
Qed.

Lemma trimEnd_prefix (s : list N) : JS.trimEnd s `prefix_of` s.
Proof.
  unfold JS.trimEnd. apply prefix_suffix_reverse.
  rewrite reverse_involutive. apply trimStart_suffix.
Qed.

Lemma trimEnd_idempotent (s : list N) : JS.trimEnd (JS.trimEnd s) = JS.trimEnd s.
Proof.
  unfold JS.trimEnd. rewrite reverse_involutive.
  by rewrite (trimStart_fixed (JS.trimStart _)) by apply trimStart_clean.
Qed.

Lemma trim_idempotent (s : list N) : JS.trim (JS.trim s) = JS.trim s.
Proof.
  unfold JS.trim.
  rewrite (trimStart_fixed (JS.trimEnd _)); [apply trimEnd_idempotent|].
  eapply startsClean_prefix; [apply trimEnd_prefix | apply trimStart_clean].
Qed.

Lemma removeRange_Forall (lo hi : N) (s : list N) :
  Forall (λ c, ¬ (lo ≤ c ∧ c ≤ hi)%N) (JS.removeRange lo hi s).
Proof.
  unfold JS.removeRange. induction s as [|c s IH]; [constructor|].
  destruct (decide (¬ (lo ≤ c ∧ c ≤ hi)%N)) as [Hc|Hc].
  - rewrite filter_cons_True by done. by constructor.
  - by rewrite filter_cons_False by done.
Qed.

Lemma removeRange_fixed (lo hi : N) (s : list N) :
  Forall (λ c, ¬ (lo ≤ c ∧ c ≤ hi)%N) s → JS.removeRange lo hi s = s.
Proof.
  unfold JS.removeRange. induction 1 as [|c s Hc Hs IH]; [done|].
  rewrite filter_cons_True by done. by rewrite IH.
Qed.

Lemma replaceAll_Forall (P : N → Prop) (c by_ : N) (s : list N) :
  P by_ → Forall P s → Forall P (JS.replaceAll c by_ s).
Proof.
  intros Hby Hs. unfold JS.replaceAll. apply Forall_fmap.
  eapply Forall_impl; [exact Hs|]. intros x Hx. simpl. by case_bool_decide.
Qed.

Lemma replaceAll_gone (c by_ : N) (s : list N) :
  by_ ≠ c → Forall (λ x, x ≠ c) (JS.replaceAll c by_ s).
Proof.
  intros Hby. unfold JS.replaceAll. apply Forall_fmap, Forall_forall.
  intros x _. simpl. by case_bool_decide.
Qed.

Lemma replaceAll_fixed (c by_ : N) (s : list N) :
  Forall (λ x, x ≠ c) s → JS.replaceAll c by_ s = s.
Proof.
  intros Hs. apply replaceAll_absent. intros Hin.
  rewrite Forall_forall in Hs. by apply Hs in Hin.
Qed.


Lemma strip_idempotent (s : list N) : strip (strip s) = strip s.
Proof.
  unfold strip.
  set (r := JS.replaceAll 0xF1 0x6E (JS.replaceAll 0x142 0x6C (JS.removeRange 0x300 0x36F s))).
  assert (Hmarks : Forall (λ c, ¬ (0x300 ≤ c ∧ c ≤ 0x36F)%N) (JS.trim r)).
  { apply trim_Forall. subst r.
    do 2 (apply replaceAll_Forall; [lia|]). apply removeRange_Forall. }
  assert (Hl : Forall (λ c, c ≠ 0x142%N) (JS.trim r)).
  { apply trim_Forall. subst r.
    apply replaceAll_Forall; [lia|]. by apply replaceAll_gone. }
  assert (Hn : Forall (λ c, c ≠ 0xF1%N) (JS.trim r)).
  { apply trim_Forall. subst r. by apply replaceAll_gone. }
  rewrite (removeRange_fixed _ _ _ Hmarks).
  rewrite (replaceAll_fixed 0x142 _ _ Hl), (replaceAll_fixed 0xF1 _ _ Hn).
  apply trim_idempotent.
Qed.

(** C8, as amended: [normalize(normalize(s))] equals [normalize(s)] for
    every string [s] whose normal form is left unchanged by [toLowerCase] and
    by [normalize("NFD")]. *)
Theorem normalizeText_idempotent `{Unicode} (s : list N) :
  toLowerCase (normalizeText s) = normalizeText s →
  normalizeNFD (normalizeText s) = normalizeText s →
  normalizeText (normalizeText s) = normalizeText s.
Proof.
  intros Hlower Hnfd.
  change (strip (normalizeNFD (toLowerCase (normalizeText s))) = normalizeText s).
  rewrite Hlower, Hnfd. apply strip_idempotent.
Qed.


Example normalizeText_cafe : @normalizeText ucd cafe = js "cafe lod".
Proof. by vm_compute. Qed.

(** The text [cafe] on [ucd]. *)
Lemma normalizeText_idempotent_witness :
  @normalizeText ucd (@normalizeText ucd cafe) = @normalizeText ucd cafe.
Proof. apply (@normalizeText_idempotent ucd cafe); by vm_compute. Defined.

(** On ASCII text the normalizer is idempotent. *)
Corollary normalizeText_idempotent_ascii `{UnicodeAscii} (s : list N) :
  Forall isAscii s → normalizeText (normalizeText s) = normalizeText s.
Proof.
  intros Hs.
  assert (Hr : Forall isAscii (normalizeText s)).
  { rewrite normalizeText_ascii by done. by apply trim_Forall, asciiLower_ascii. }
  change (strip (normalizeNFD (toLowerCase (normalizeText s))) = normalizeText s).
  rewrite (toLowerCase_ascii _ Hr).
  rewrite (normalizeNFD_ascii _ (asciiLower_ascii _ Hr)).
  assert (Hfix : asciiLower <$> normalizeText s = normalizeText s).
  { rewrite normalizeText_ascii by done.
    assert (Hlow : Forall (λ c, asciiLower c = c) (JS.trim (asciiLower <$> s))).
    { apply trim_Forall, Forall_fmap, Forall_forall. intros c _. simpl.
      unfold asciiLower. repeat case_bool_decide; lia. }
    induction Hlow as [|c t Hc Ht IH]; [done|]. cbn [fmap list_fmap]. by rewrite Hc, IH. }
  rewrite Hfix. apply strip_idempotent.
Qed.

(** C8, as stated, fails.  In [yerushalaim] the joiner U+034F keeps the
    points patah (U+05B7, class 17) and hiriq (U+05B4, class 14) of the lamed
    in the order written, and [normalize("NFD")] leaves them so.  The
    normalizer removes the joiner, which lies in U+0300..U+036F; normalizing
    again, the two points are adjacent and [normalize("NFD")] puts the hiriq
    first. *)
Lemma normalizeText_not_idempotent :
  @normalizeText ucd yerushalaim
  = [0x5D9; 0x5B0; 0x5E8; 0x5D5; 0x5BC; 0x5E9; 0x5B8; 0x5C1; 0x5DC; 0x5B7; 0x5B4; 0x5DD]%N
  ∧ @normalizeText ucd (@normalizeText ucd yerushalaim)
    = [0x5D9; 0x5B0; 0x5E8; 0x5D5; 0x5BC; 0x5E9; 0x5B8; 0x5C1; 0x5DC; 0x5B4; 0x5B7; 0x5DD]%N
  ∧ @normalizeText ucd (@normalizeText ucd yerushalaim) ≠ @normalizeText ucd yerushalaim.
Proof. split_and!; by vm_compute. Qed.


(** * Further properties of the matchers *)

(** ** Reading a string from an index *)

Lemma drop_cons_at (s : list N) (i : Z) (c : N) (rest : list N) :
  0 ≤ i → drop (Z.to_nat i) s = c :: rest →
  JS.at_ s i = Some c ∧ drop (Z.to_nat (i + 1)) s = rest ∧ i < JS.len s.
Proof.
  intros Hi Hdrop.
  assert (Hc : s !! Z.to_nat i = Some c).
  { rewrite <- (Nat.add_0_r (Z.to_nat i)), <- lookup_drop, Hdrop. done. }
  split_and!.
  - unfold JS.at_. by rewrite bool_decide_eq_true_2 by done.
  - replace (Z.to_nat (i + 1)) with (S (Z.to_nat i)) by lia.
    apply (drop_S _ _ _) in Hc. rewrite Hdrop in Hc. congruence.
  - apply lookup_lt_Some in Hc. unfold JS.len. lia.
Qed.

Lemma drop_nil_at (s : list N) (i : Z) :
  0 ≤ i → drop (Z.to_nat i) s = [] → JS.at_ s i = None ∧ JS.len s ≤ i.
Proof.
  intros Hi Hdrop. apply (f_equal length) in Hdrop. rewrite length_drop in Hdrop.
  simpl in Hdrop. split.
  - unfold JS.at_. rewrite bool_decide_eq_true_2 by done. apply lookup_ge_None. lia.
  - unfold JS.len. lia.
Qed.

(** ** The aggressive matcher finds every subsequence *)

Lemma aggressiveLoop_query_done (n : nat) (normalizedItem normalizedQuery : list N)
    (itemIdx q : Z) (indices : list (Z * Z)) (cf cl : Z) :
  0 ≤ itemIdx → JS.len normalizedItem - itemIdx = Z.of_nat n →
  JS.at_ normalizedQuery q = None →
  aggressiveLoop n normalizedItem normalizedQuery itemIdx q indices cf cl = None.
Proof.
  revert itemIdx. induction n as [|n IH]; intros itemIdx Hi Hn Hq; [done|].
  cbn [aggressiveLoop].
  destruct (at_in_range normalizedItem itemIdx ltac:(lia)) as [c Hc].
  rewrite bool_decide_eq_false_2 by congruence. apply IH; [lia | lia | done].
Qed.

Lemma aggressiveLoop_sublist (n : nat) (normalizedItem normalizedQuery : list N)
    (itemIdx q : Z) (indices : list (Z * Z)) (cf cl : Z) (ri rq : list N) :
  0 ≤ itemIdx → 0 ≤ q →
  drop (Z.to_nat itemIdx) normalizedItem = ri →
  drop (Z.to_nat q) normalizedQuery = rq →
  length ri = n →
  is_Some (aggressiveLoop n normalizedItem normalizedQuery itemIdx q indices cf cl)
  ↔ rq ≠ [] ∧ rq `sublist_of` ri.
Proof.
  revert itemIdx q indices cf cl ri rq.
  induction n as [|n IH]; intros itemIdx q indices cf cl ri rq Hi Hq Hri Hrq Hn.
  { destruct ri; [|done]. cbn [aggressiveLoop]. split; [by intros []|].
    intros [Hne Hsub]. by apply sublist_nil_r in Hsub. }
  destruct ri as [|c ri]; [done|]. injection Hn as Hn.
  destruct (drop_cons_at _ _ _ _ Hi Hri) as (Hc & Hri' & Hlt).
  cbn [aggressiveLoop]. rewrite Hc.
  destruct rq as [|d rq].
  { destruct (drop_nil_at _ _ Hq Hrq) as [Hd _]. rewrite Hd.
    rewrite bool_decide_eq_false_2 by done.
    rewrite aggressiveLoop_query_done;
      [by split; [intros [] | intros []] | lia | | done].
    unfold JS.len in *. apply (f_equal length) in Hri. rewrite length_drop in Hri.
    simpl in Hri. lia. }
  destruct (drop_cons_at _ _ _ _ Hq Hrq) as (Hd & Hrq' & Hqlt). rewrite Hd.
  case_bool_decide as Heq.
  - injection Heq as ->. case_bool_decide as Hlast.
    + split; [|done]. intros _. split; [done|].
      assert (rq = []) as ->.
      { rewrite <- Hrq'. apply drop_ge. unfold JS.len in Hlast. lia. }
      apply sublist_skip, sublist_nil_l.
    + rewrite (IH (itemIdx + 1) (q + 1) _ _ _ ri rq) by (done || lia).
      assert (Hrqne : rq ≠ []).
      { intros ->. apply (f_equal length) in Hrq'. rewrite length_drop in Hrq'.
        simpl in Hrq'. unfold JS.len in *. lia. }
      split.
      * intros [_ Hsub]. split; [done | by apply sublist_skip].
      * intros [_ Hsub]. split; [done|].
        apply sublist_cons_r in Hsub as [Hsub|(l' & [= <-] & Hsub)]; [|done].
        apply sublist_cons_l in Hsub as (k1 & k2 & -> & Hsub).
        by apply sublist_inserts_l, sublist_cons.
  - rewrite (IH (itemIdx + 1) q _ _ _ ri (d :: rq)) by (done || lia).
    split.
    + intros [_ Hsub]. split; [done | by apply sublist_cons].
    + intros [_ Hsub]. split; [done|].
      apply sublist_cons_r in Hsub as [Hsub|(l' & [= -> _] & _)]; [done | congruence].
Qed.

(** ** Slices *)

Lemma slice_within (s : list N) (a b : Z) :
  0 ≤ a → a ≤ b → b ≤ JS.len s →
  JS.slice s a b = take (Z.to_nat (b - a)) (drop (Z.to_nat a) s).
Proof.
  intros Ha Hab Hb. unfold JS.slice.
  rewrite !bool_decide_eq_false_2 by lia. by rewrite !Z.min_l by lia.
Qed.

Lemma slice_length (s : list N) (a b : Z) :
  0 ≤ a → a ≤ b → b ≤ JS.len s → JS.len (JS.slice s a b) = b - a.
Proof.
  intros Ha Hab Hb. rewrite slice_within by done.
  unfold JS.len in *. rewrite length_take, length_drop. lia.
Qed.

Lemma slice_empty (s : list N) (a : Z) : 0 ≤ a → JS.slice s a a = [].
Proof.
  intros Ha. unfold JS.slice. rewrite !bool_decide_eq_false_2 by lia.
  by rewrite Z.sub_diag.
Qed.

Lemma slice_snoc (s : list N) (a b : Z) (c : N) :
  0 ≤ a → a ≤ b → JS.at_ s b = Some c →
  JS.slice s a (b + 1) = JS.slice s a b ++ [c].
Proof.
  intros Ha Hab Hc. pose proof (at_Some _ _ _ Hc) as Hb.
  rewrite !slice_within by lia.
  replace (Z.to_nat (b + 1 - a)) with (S (Z.to_nat (b - a))) by lia.
  apply take_S_r. rewrite lookup_drop.
  unfold JS.at_ in Hc. rewrite bool_decide_eq_true_2 in Hc by lia.
  rewrite <- Hc. f_equal. lia.
Qed.

Lemma slice_one (s : list N) (i : Z) (c : N) :
  JS.at_ s i = Some c → JS.slice s i (i + 1) = [c].
Proof.
  intros Hc. pose proof (at_Some _ _ _ Hc) as Hi.
  rewrite (slice_snoc s i i c) by (lia || done). by rewrite slice_empty by lia.
Qed.

Lemma slice_from_start (s : list N) (q : Z) :
  0 ≤ q → q ≤ JS.len s → JS.slice s 0 q = take (Z.to_nat q) s.
Proof.
  intros Hq Hlen. rewrite slice_within by lia. simpl. by rewrite Z.sub_0_r.
Qed.

Lemma slice_all (s : list N) : JS.slice s 0 (JS.len s) = s.
Proof.
  pose proof (len_nonneg s). rewrite slice_from_start by lia.
  apply take_ge. unfold JS.len. lia.
Qed.

Lemma slice_app (s : list N) (a b c : Z) :
  0 ≤ a → a ≤ b → b ≤ c → c ≤ JS.len s →
  JS.slice s a b ++ JS.slice s b c = JS.slice s a c.
Proof.
  intros Ha Hab Hbc Hc. rewrite !slice_within by lia.
  replace (Z.to_nat b) with (Z.to_nat a + Z.to_nat (b - a))%nat by lia.
  rewrite <- drop_drop.
  replace (Z.to_nat (c - a)) with (Z.to_nat (b - a) + Z.to_nat (c - b))%nat by lia.
  by rewrite <- take_take_drop.
Qed.

(** Slices that agree unit by unit are equal. *)
Lemma slice_ext (s t : list N) (a q m : Z) :
  0 ≤ a → 0 ≤ q → 0 ≤ m → a + m ≤ JS.len s → q + m ≤ JS.len t →
  (∀ i, 0 ≤ i < m → JS.at_ s (a + i) = JS.at_ t (q + i)) →
  JS.slice s a (a + m) = JS.slice t q (q + m).
Proof.
  intros Ha Hq Hm Hs Ht Hall.
  apply (list_eq_same_length _ _ (Z.to_nat m)).
  - pose proof (slice_length t q (q + m)) as Hlen. unfold JS.len in *. lia.
  - pose proof (slice_length s a (a + m)) as Hlen. unfold JS.len in *. lia.
  - intros i x y Hi Hx Hy.
    pose proof (slice_at s a m (Z.of_nat i) Ha Hs ltac:(lia)) as H1.
    pose proof (slice_at t q m (Z.of_nat i) Hq Ht ltac:(lia)) as H2.
    unfold JS.at_ in H1 at 1. unfold JS.at_ in H2 at 1.
    rewrite bool_decide_eq_true_2, Nat2Z.id in H1, H2 by lia.
    rewrite Hx in H1. rewrite Hy in H2. rewrite Hall in H1 by lia. congruence.
Qed.

Lemma highlighted_app (s : list N) (l1 l2 : list (Z * Z)) :
  highlighted s (l1 ++ l2) = highlighted s l1 ++ highlighted s l2.
Proof. unfold highlighted. apply bind_app. Qed.

Lemma highlighted_single (s : list N) (r : Z * Z) :
  highlighted s [r] = JS.slice s r.1 (r.2 + 1).
Proof. unfold highlighted. simpl. apply app_nil_r. Qed.

(** ** What the chunks of the aggressive matcher mark *)

Lemma take_query_snoc (normalizedQuery : list N) (q : Z) (d : N) :
  0 ≤ q → JS.at_ normalizedQuery q = Some d →
  take (Z.to_nat (q + 1)) normalizedQuery = take (Z.to_nat q) normalizedQuery ++ [d].
Proof.
  intros Hq Hd. replace (Z.to_nat (q + 1)) with (S (Z.to_nat q)) by lia.
  apply take_S_r. unfold JS.at_ in Hd. by rewrite bool_decide_eq_true_2 in Hd by done.
Qed.

Lemma apart_snoc (indices : list (Z * Z)) (chunk : Z * Z) :
  StronglySorted apart indices →
  Forall (λ r, r.2 + 1 < chunk.1) indices →
  StronglySorted apart (indices ++ [chunk]).
Proof.
  intros Hsorted Hbound. apply StronglySorted_app_2; [|done|repeat constructor].
  intros r1 r2 Hr1 Hr2. apply list_elem_of_singleton in Hr2 as ->.
  rewrite Forall_forall in Hbound. by apply Hbound.
Qed.

(** The loop keeps the marked text equal to the part of the query read so
    far; the chunk being built counts as marked. *)
Lemma aggressiveLoop_marks (n : nat) (normalizedItem normalizedQuery : list N)
    (itemIdx q : Z) (indices : list (Z * Z)) (cf cl : Z) (sc : Qc) (chunks : list (Z * Z)) :
  0 ≤ itemIdx → JS.len normalizedItem - itemIdx = Z.of_nat n → 0 ≤ q →
  (cf = -1 ∧ cl = -2 ∧ indices = [] ∧ q = 0)
  ∨ (0 ≤ cf ∧ cf ≤ cl ∧ cl < itemIdx
     ∧ StronglySorted apart indices
     ∧ Forall (within normalizedItem) indices
     ∧ Forall (λ r, r.2 + 1 < cf) indices
     ∧ highlighted normalizedItem indices ++ JS.slice normalizedItem cf (cl + 1)
       = take (Z.to_nat q) normalizedQuery) →
  aggressiveLoop n normalizedItem normalizedQuery itemIdx q indices cf cl = Some (sc, chunks) →
  StronglySorted apart chunks
  ∧ Forall (within normalizedItem) chunks
  ∧ highlighted normalizedItem chunks = normalizedQuery.
Proof.
  revert itemIdx q indices cf cl.
  induction n as [|n IH]; intros itemIdx q indices cf cl Hi Hn Hq Hinv; [done|].
  cbn [aggressiveLoop]. case_bool_decide as Hchar.
  2:{ apply IH; [lia | lia | lia |].
      destruct Hinv as [?|(? & ? & ? & ? & ? & ? & ?)]; [by left|].
      right. split_and!; (lia || done). }
  - destruct (at_in_range normalizedItem itemIdx ltac:(lia)) as [d Hd].
    assert (Hdq : JS.at_ normalizedQuery q = Some d) by congruence.
    set (indices1 := if bool_decide (itemIdx ≠ cl + 1)
                     then if bool_decide (0 ≤ cf) then indices ++ [(cf, cl)] else indices
                     else indices).
    set (cf1 := if bool_decide (itemIdx ≠ cl + 1) then itemIdx else cf).
    assert (Hinv1 : 0 ≤ cf1 ∧ cf1 ≤ itemIdx
                    ∧ StronglySorted apart indices1
                    ∧ Forall (within normalizedItem) indices1
                    ∧ Forall (λ r, r.2 + 1 < cf1) indices1
                    ∧ highlighted normalizedItem indices1
                      ++ JS.slice normalizedItem cf1 (itemIdx + 1)
                      = take (Z.to_nat (q + 1)) normalizedQuery).
    { rewrite (take_query_snoc _ _ _ Hq Hdq). subst indices1 cf1.
      destruct Hinv as [(-> & -> & -> & ->)|(Hcf & Hcl & Hlt & Hsorted & Hwithin & Hgap & Htext)].
      - rewrite bool_decide_eq_true_2 by lia. rewrite bool_decide_eq_false_2 by lia.
        split_and!; [lia | lia | constructor | constructor | constructor |].
        by rewrite (slice_one _ _ _ Hd).
      - case_bool_decide as Hnew.
        + rewrite bool_decide_eq_true_2 by lia.
          split_and!; [lia | lia | by apply apart_snoc | | |].
          * apply Forall_app. split; [done|]. repeat constructor; simpl; lia.
          * apply Forall_app. split; [|repeat constructor; simpl; lia].
            eapply Forall_impl; [exact Hgap|]. intros r Hr. simpl in Hr. lia.
          * rewrite highlighted_app, highlighted_single. cbn [fst snd].
            by rewrite Htext, (slice_one _ _ _ Hd).
        + split_and!; [lia | lia | done | done | done |].
          rewrite (slice_snoc _ cf itemIdx d) by (lia || done).
          rewrite app_assoc. f_equal. rewrite <- Htext. do 2 f_equal. lia. }
    clearbody indices1 cf1.
    destruct Hinv1 as (Hcf1 & Hle1 & Hsorted1 & Hwithin1 & Hgap1 & Htext1).
    case_bool_decide as Hlast.
    + intros [= _ <-]. split_and!.
      * by apply apart_snoc.
      * apply Forall_app. split; [done|]. repeat constructor; simpl; lia.
      * rewrite highlighted_app, highlighted_single. cbn [fst snd]. rewrite Htext1.
        apply take_ge. unfold JS.len in Hlast. lia.
    + apply IH; [lia | lia | lia |]. right.
      split_and!; [lia | lia | lia | done | done | done | done].
Qed.

(** X2: when the aggressive matcher succeeds, its chunks are ranges of the
    item that are not empty, come in ascending order with at least one
    unmatched position between any two of them, and the text they mark,
    read in order, is the query. *)
Theorem aggressiveFuzzyMatch_marks_query (normalizedItem normalizedQuery : list N)
    (sc : Qc) (chunks : list (Z * Z)) :
  aggressiveFuzzyMatch normalizedItem normalizedQuery = Some (sc, chunks) →
  StronglySorted (λ r1 r2, r1.2 + 1 < r2.1) chunks
  ∧ Forall (λ r, 0 ≤ r.1 ∧ r.1 ≤ r.2 ∧ r.2 < JS.len normalizedItem) chunks
  ∧ chunks ≫= (λ r, JS.slice normalizedItem r.1 (r.2 + 1)) = normalizedQuery.
Proof.
  apply aggressiveLoop_marks; [lia | unfold JS.len; lia | lia | by left].
Qed.

(** "Hello World" and "hwl". *)
Lemma aggressiveFuzzyMatch_marks_query_witness :
  StronglySorted (λ r1 r2 : Z * Z, r1.2 + 1 < r2.1) [(0, 0); (6, 6); (9, 9)]
  ∧ Forall (λ r : Z * Z, 0 ≤ r.1 ∧ r.1 ≤ r.2 ∧ r.2 < JS.len (js "hello world"))
           [(0, 0); (6, 6); (9, 9)]
  ∧ [(0, 0); (6, 6); (9, 9)] ≫= (λ r, JS.slice (js "hello world") r.1 (r.2 + 1))
    = js "hwl".
Proof.
  apply (aggressiveFuzzyMatch_marks_query (js "hello world") (js "hwl") (tenths 44)).
  by_evaluation.
Defined.

(** X1: the aggressive matcher succeeds exactly when the query is not empty
    and is a subsequence of the item (its characters occur in the item in the
    same order, not necessarily next to each other). *)
Theorem aggressiveFuzzyMatch_iff_subsequence (normalizedItem normalizedQuery : list N) :
  is_Some (aggressiveFuzzyMatch normalizedItem normalizedQuery)
  ↔ normalizedQuery ≠ [] ∧ normalizedQuery `sublist_of` normalizedItem.
Proof.
  unfold aggressiveFuzzyMatch.
  by apply (aggressiveLoop_sublist _ _ _ 0 0 _ _ _ normalizedItem normalizedQuery).
Qed.

(** ** What the chunks of the smart matcher mark *)

(** An accepted chunk is a copy of the part of the query that it consumes. *)
Lemma smartTurn_pushed_text (normalizedItem normalizedQuery : list N) (q c a b q' : Z) :
  0 ≤ q ≤ JS.len normalizedQuery →
  smartTurn normalizedItem normalizedQuery q c = Pushed (a, b) q' →
  JS.slice normalizedItem a (b + 1) = JS.slice normalizedQuery q q'.
Proof.
  intros Hq Hturn.
  pose proof (smartTurn_cases normalizedItem normalizedQuery q c Hq) as Hcases.
  rewrite Hturn in Hcases.
  destruct Hcases as (Hca & Ha & Hb & _ & Hqq & Hlen & _ & _).
  revert Hturn. unfold smartTurn.
  case_bool_decide; [done|]. destruct (acceptsChunkStart _ _ _ _); [|done].
  destruct (extendChunk _ _ _ _ _) as [k' q1] eqn:Hext.
  intros [= Ea Eb Eq].
  apply extendChunk_spec in Hext as (_ & _ & Hall & _).
  rewrite Ea in Hall. subst q1.
  replace (b + 1) with (a + (k' - a)) by lia.
  replace q' with (q + (k' - a)) by lia.
  apply slice_ext; try lia. exact Hall.
Qed.

Lemma slice_head (s : list N) (a b : Z) :
  0 ≤ a → a < b → b ≤ JS.len s → JS.at_ (JS.slice s a b) 0 = JS.at_ s a.
Proof.
  intros Ha Hab Hb. replace b with (a + (b - a)) by lia.
  rewrite slice_at by lia. f_equal. lia.
Qed.

Lemma smartLoop_marks (fuel : nat) (normalizedItem normalizedQuery : list N)
    (indices : list (Z * Z)) (q c : Z) (sc : Qc) (chunks : list (Z * Z)) :
  0 ≤ q < JS.len normalizedQuery →
  StronglySorted apart indices →
  Forall (within normalizedItem) indices →
  Forall (λ r, r.2 ≤ c) indices →
  highlighted normalizedItem indices = take (Z.to_nat q) normalizedQuery →
  JS.len normalizedItem ≤ c + 1
  ∨ JS.at_ normalizedItem (c + 1) ≠ JS.at_ normalizedQuery q
  ∨ Forall (λ r, r.2 < c) indices →
  smartLoop fuel normalizedItem normalizedQuery indices q c = Some (Some (sc, chunks)) →
  StronglySorted apart chunks
  ∧ Forall (within normalizedItem) chunks
  ∧ highlighted normalizedItem chunks = normalizedQuery.
Proof.
  revert indices q c.
  induction fuel as [|fuel IH];
    intros indices q c Hq Hsorted Hwithin Hbound Htext Hbarrier; [done|].
  cbn [smartLoop].
  pose proof (smartTurn_cases normalizedItem normalizedQuery q c ltac:(lia)) as Hcases.
  destruct (smartTurn _ _ _ _) as [|c'|[a b] q'] eqn:Hturn; [done | |].
  - destruct Hcases as [-> _]. apply IH; [done | done | done | | done |].
    + eapply Forall_impl; [exact Hbound|]. intros r Hr. simpl in Hr. lia.
    + right. right. eapply Forall_impl; [exact Hbound|]. intros r Hr. simpl in Hr. lia.
  - pose proof (smartTurn_pushed_text normalizedItem normalizedQuery q c a b q'
                  ltac:(lia) Hturn) as Hcopy.
    destruct Hcases as (Hca & Ha & Hb & _ & Hqq & Hlen & Hfin & Hstop).
    assert (Hab : a ≤ b) by lia.
    assert (Hfirst : JS.at_ normalizedItem a = JS.at_ normalizedQuery q).
    { rewrite <- (slice_head normalizedItem a (b + 1)) by lia.
      rewrite <- (slice_head normalizedQuery q q') by lia. by rewrite Hcopy. }
    assert (Hgap : Forall (λ r, r.2 + 1 < a) indices).
    { destruct Hbarrier as [Hend|[Hne|Hlt]].
      - lia.
      - assert (a ≠ c + 1) by congruence.
        eapply Forall_impl; [exact Hbound|]. intros r Hr. simpl in Hr. lia.
      - eapply Forall_impl; [exact Hlt|]. intros r Hr. simpl in Hr. lia. }
    assert (Hsorted1 : StronglySorted apart (indices ++ [(a, b)])) by by apply apart_snoc.
    assert (Hwithin1 : Forall (within normalizedItem) (indices ++ [(a, b)])).
    { apply Forall_app. split; [done|]. repeat constructor; simpl; lia. }
    assert (Htext1 : highlighted normalizedItem (indices ++ [(a, b)])
                     = take (Z.to_nat q') normalizedQuery).
    { rewrite highlighted_app, highlighted_single, Htext. cbn [fst snd]. rewrite Hcopy.
      rewrite <- !slice_from_start by lia. apply slice_app; lia. }
    case_bool_decide as Hq'.
    + intros [= _ <-]. split_and!; [done | done |].
      rewrite Htext1. apply take_ge. unfold JS.len in Hq'. lia.
    + apply IH; [lia | done | done | | done |].
      * apply Forall_app. split; [|repeat constructor; simpl; lia].
        eapply Forall_impl; [exact Hbound|]. intros r Hr. simpl in Hr. simpl. lia.
      * simpl. destruct Hstop as [Hend|Hne]; [left; lia | right; by left].
Qed.

(** X3: when the smart matcher succeeds on a query that is not empty, its
    chunks are ranges of the item that are not empty, come in ascending order
    with at least one unmatched position between any two of them, and the
    text they mark, read in order, is the query. *)
Theorem smartFuzzyMatch_marks_query (normalizedItem normalizedQuery : list N)
    (sc : Qc) (chunks : list (Z * Z)) :
  normalizedQuery ≠ [] →
  smartFuzzyMatch normalizedItem normalizedQuery = Some (sc, chunks) →
  StronglySorted (λ r1 r2, r1.2 + 1 < r2.1) chunks
  ∧ Forall (λ r, 0 ≤ r.1 ∧ r.1 ≤ r.2 ∧ r.2 < JS.len normalizedItem) chunks
  ∧ chunks ≫= (λ r, JS.slice normalizedItem r.1 (r.2 + 1)) = normalizedQuery.
Proof.
  intros Hquery Hmatch.
  pose proof (smartFuzzyMatch_loop normalizedItem normalizedQuery 0) as Hloop.
  rewrite Hmatch in Hloop.
  apply smartLoop_marks in Hloop; [done | | constructor | constructor | constructor | done |].
  - destruct normalizedQuery; [done|]. unfold JS.len. simpl. lia.
  - right. right. constructor.
Qed.

(** "foobar bazqux qed" and "fooazqq". *)
Lemma smartFuzzyMatch_marks_query_witness :
  StronglySorted (λ r1 r2 : Z * Z, r1.2 + 1 < r2.1) [(0, 2); (8, 10); (14, 14)]
  ∧ Forall (λ r : Z * Z, 0 ≤ r.1 ∧ r.1 ≤ r.2 ∧ r.2 < JS.len (js "foobar bazqux qed"))
           [(0, 2); (8, 10); (14, 14)]
  ∧ [(0, 2); (8, 10); (14, 14)] ≫= (λ r, JS.slice (js "foobar bazqux qed") r.1 (r.2 + 1))
    = js "fooazqq".
Proof.
  apply (smartFuzzyMatch_marks_query (js "foobar bazqux qed") (js "fooazqq") (tenths 36));
    [done | by_evaluation].
Defined.

(** ** Occurrences *)

Lemma indexOfFrom_complete (pat s : list N) (k : Z) :
  0 ≤ k → occursIn pat s → JS.indexOfFrom pat s k ≠ -1.
Proof.
  intros Hk (l1 & l2 & ->). revert k Hk.
  induction l1 as [|x l1 IH]; intros k Hk.
  - destruct (pat ++ l2) eqn:Hs; cbn [JS.indexOfFrom app].
    + rewrite bool_decide_eq_true_2; [lia|]. rewrite <- Hs. by apply prefix_app_r.
    + rewrite bool_decide_eq_true_2; [lia|]. rewrite <- Hs. by apply prefix_app_r.
  - cbn [JS.indexOfFrom app]. case_bool_decide; [lia|]. apply IH. lia.
Qed.

Lemma indexOf_occurs (s pat : list N) :
  JS.indexOf s pat 0 ≠ -1 ↔ occursIn pat s.
Proof.
  split.
  - intros Hfound. unfold JS.indexOf in Hfound.
    pose proof (len_nonneg s).
    rewrite Z.max_l, Z.min_l in Hfound by lia. simpl in Hfound.
    destruct (indexOfFrom_found pat s 0) as [?|(Hge & Hle & [rest Hrest])]; [done | done |].
    rewrite Z.sub_0_r in Hrest.
    exists (take (Z.to_nat (JS.indexOfFrom pat s 0)) s), rest.
    by rewrite <- Hrest, take_drop.
  - intros Hocc. unfold JS.indexOf. pose proof (len_nonneg s).
    rewrite Z.max_l, Z.min_l by lia. simpl. by apply indexOfFrom_complete.
Qed.

Lemma indexOf_nonneg (s pat : list N) (position : Z) :
  JS.indexOf s pat position = -1 ∨ 0 ≤ JS.indexOf s pat position.
Proof.
  unfold JS.indexOf. pose proof (len_nonneg s).
  destruct (indexOfFrom_found pat (drop (Z.to_nat (Z.min (Z.max position 0) (JS.len s))) s)
              (Z.min (Z.max position 0) (JS.len s))) as [?|(? & _)]; [lia | by left | right; lia].
Qed.

(** ** The smart matcher against the aggressive one *)

(** Ranges in ascending order mark a subsequence. *)
Lemma highlighted_sublist (s : list N) (chunks : list (Z * Z)) (lo : Z) :
  0 ≤ lo →
  StronglySorted apart chunks →
  Forall (λ r, lo ≤ r.1 ∧ r.1 ≤ r.2 ∧ r.2 < JS.len s) chunks →
  highlighted s chunks `sublist_of` drop (Z.to_nat lo) s.
Proof.
  intros Hlo Hsorted. revert lo Hlo.
  induction Hsorted as [|[a b] chunks Hsorted IH Hgap]; intros lo Hlo Hwithin.
  - apply sublist_nil_l.
  - apply Forall_cons in Hwithin as [(Ha & Hab & Hb) Hwithin]. simpl in Ha, Hab, Hb.
    change (highlighted s ((a, b) :: chunks))
      with (JS.slice s a (b + 1) ++ highlighted s chunks).
    rewrite slice_within by lia.
    assert (Hsplit : drop (Z.to_nat lo) s
                     = take (Z.to_nat (a - lo)) (drop (Z.to_nat lo) s)
                       ++ take (Z.to_nat (b + 1 - a)) (drop (Z.to_nat a) s)
                       ++ drop (Z.to_nat (b + 1)) s).
    { rewrite <- (take_drop (Z.to_nat (a - lo)) (drop (Z.to_nat lo) s)) at 1.
      f_equal. rewrite drop_drop.
      replace (Z.to_nat lo + Z.to_nat (a - lo))%nat with (Z.to_nat a) by lia.
      rewrite <- (take_drop (Z.to_nat (b + 1 - a)) (drop (Z.to_nat a) s)) at 1.
      f_equal. rewrite drop_drop. f_equal. lia. }
    rewrite Hsplit. apply sublist_inserts_l, sublist_app; [done|].
    apply IH; [lia|].
    rewrite Forall_forall in Hgap, Hwithin. apply Forall_forall. intros r Hr.
    specialize (Hgap r Hr). specialize (Hwithin r Hr). unfold apart in Hgap.
    simpl in Hgap. lia.
Qed.

Lemma smartFuzzyMatch_sublist (normalizedItem normalizedQuery : list N) :
  normalizedQuery ≠ [] →
  is_Some (smartFuzzyMatch normalizedItem normalizedQuery) →
  normalizedQuery `sublist_of` normalizedItem.
Proof.
  intros Hquery [[sc chunks] Hmatch].
  pose proof (smartFuzzyMatch_loop normalizedItem normalizedQuery 0) as Hloop.
  rewrite Hmatch in Hloop.
  apply smartLoop_marks in Hloop as (Hsorted & Hwithin & Htext);
    [| | constructor | constructor | constructor | done | right; right; constructor].
  - rewrite <- Htext.
    apply (highlighted_sublist normalizedItem chunks 0); [lia | done |].
    eapply Forall_impl; [exact Hwithin|]. unfold within. intros r Hr. lia.
  - destruct normalizedQuery; [done|]. unfold JS.len. simpl. lia.
Qed.

(** X4: whatever the smart matcher matches, the aggressive matcher matches
    too: for a query that is not empty, a result of the smart matcher means
    that the query is a subsequence of the item, and then the aggressive
    matcher returns a result as well. *)
Theorem smart_match_is_aggressive_match (normalizedItem normalizedQuery : list N) :
  normalizedQuery ≠ [] →
  is_Some (smartFuzzyMatch normalizedItem normalizedQuery) →
  normalizedQuery `sublist_of` normalizedItem
  ∧ is_Some (aggressiveFuzzyMatch normalizedItem normalizedQuery).
Proof.
  intros Hquery Hsmart.
  pose proof (smartFuzzyMatch_sublist _ _ Hquery Hsmart) as Hsub.
  split; [done|]. unfold aggressiveFuzzyMatch.
  by apply (aggressiveLoop_sublist _ _ _ 0 0 _ _ _ normalizedItem normalizedQuery).
Qed.

(** "hello world" and "hd". *)
Lemma smart_match_is_aggressive_match_witness :
  js "hd" `sublist_of` js "hello world"
  ∧ is_Some (aggressiveFuzzyMatch (js "hello world") (js "hd")).
Proof.
  apply (smart_match_is_aggressive_match (js "hello world") (js "hd")); [done|].
  vm_compute. eauto.
Defined.

(** The converse fails: the aggressive matcher accepts single letters in the
    middle of words. *)
Example aggressive_match_not_smart :
  is_Some (aggressiveFuzzyMatch (js "hello world") (js "eo"))
  ∧ smartFuzzyMatch (js "hello world") (js "eo") = None.
Proof. split; [vm_compute; eauto | by vm_compute]. Qed.

(** X5: with the empty query the smart matcher does not fail outright.  The
    character it looks for is [undefined], which [indexOf] reads as the text
    "undefined": the matcher succeeds exactly when that text occurs in the
    item, and then returns one empty chunk, [i, i - 1], at its first
    occurrence. *)
Theorem smartFuzzyMatch_empty_query (normalizedItem : list N) :
  (is_Some (smartFuzzyMatch normalizedItem []) ↔ occursIn (js "undefined") normalizedItem)
  ∧ (∀ r, smartFuzzyMatch normalizedItem [] = Some r →
          r.2 = [(JS.indexOf normalizedItem (js "undefined") 0,
                  JS.indexOf normalizedItem (js "undefined") 0 - 1)]).
Proof.
  assert (Hturn : smartFuzzyMatch normalizedItem []
                  = if bool_decide (JS.indexOf normalizedItem (js "undefined") 0 = -1)
                    then None
                    else Some (scoreConsecutiveLetters
                                 [(JS.indexOf normalizedItem (js "undefined") 0,
                                   JS.indexOf normalizedItem (js "undefined") 0 - 1)]
                                 normalizedItem)).
  { unfold smartFuzzyMatch, smartFuel.
    replace (length normalizedItem + 2)%nat with (S (length normalizedItem + 1)) by lia.
    cbn [smartLoop]. unfold smartTurn.
    change (JS.at_ [] 0) with (@None N). cbn [JS.toString].
    assert (Hclamp : JS.indexOf normalizedItem (js "undefined") (-2 + 1)
                     = JS.indexOf normalizedItem (js "undefined") 0).
    { unfold JS.indexOf. pose proof (len_nonneg normalizedItem).
      by rewrite !Z.max_r by lia. }
    rewrite Hclamp. set (idx := JS.indexOf normalizedItem (js "undefined") 0).
    case_bool_decide as Hidx; [done|].
    destruct (indexOf_found normalizedItem (js "undefined") 0) as [?|(_ & Hge & Hle & _)];
      [done | done |].
    fold idx in Hge, Hle. change (JS.len (js "undefined")) with 9 in Hle.
    assert (Haccept : acceptsChunkStart normalizedItem [] 0 idx = true).
    { unfold acceptsChunkStart. destruct (_ || _); [done|].
      change (JS.len []) with 0. rewrite (Z.min_r 3) by lia.
      rewrite Z.min_l by lia. apply bool_decide_eq_true.
      rewrite slice_empty by lia. rewrite Z.add_0_r. by rewrite slice_empty by lia. }
    rewrite Haccept.
    destruct (Z.to_nat (JS.len normalizedItem - idx)) as [|n] eqn:Hn; [lia|].
    cbn [extendChunk].
    destruct (at_in_range normalizedItem idx ltac:(lia)) as [ch Hch]. rewrite Hch.
    change (JS.at_ [] 0) with (@None N).
    rewrite bool_decide_eq_true_2 by done. cbn [app].
    by rewrite bool_decide_eq_true_2 by done. }
  split.
  - rewrite Hturn, <- indexOf_occurs. case_bool_decide; split; try done.
  - intros r. rewrite Hturn. case_bool_decide; [done|]. by intros [= <-].
Qed.

(** ** Strategies *)

Lemma contains_occurs (s pat : list N) : -1 < JS.indexOf s pat 0 ↔ occursIn pat s.
Proof.
  rewrite <- indexOf_occurs. destruct (indexOf_nonneg s pat 0); lia.
Qed.



(** Every call either ends in a tier above the fuzzy matchers, with one result
    whatever the strategy, or hands a query that is not empty and does not
    occur in the item to the matcher of the strategy. *)
Lemma matchesFuzzily_tiers (item normalizedItem : list N) (itemWords : gset (list N))
    (query normalizedQuery : list N) (queryWords : list (list N)) :
  (∃ r, ∀ strategy,
      matchesFuzzily item normalizedItem itemWords query normalizedQuery queryWords strategy
      = Some r)
  ∨ (normalizedQuery ≠ []
     ∧ ¬ occursIn normalizedQuery normalizedItem
     ∧ ∀ strategy,
         matchesFuzzily item normalizedItem itemWords query normalizedQuery queryWords strategy
         = match strategy with
           | aggressive => aggressiveFuzzyMatch normalizedItem normalizedQuery
           | smart => smartFuzzyMatch normalizedItem normalizedQuery
           | off => None
           end).
Proof.
  unfold matchesFuzzily, JS.startsWith.
  destruct (bool_decide (item = query)); [left; by eexists|].
  destruct (bool_decide (normalizedItem = normalizedQuery)); [left; by eexists|].
  destruct (bool_decide (normalizedQuery `prefix_of` normalizedItem)) eqn:Hprefix;
    [left; by eexists|].
  destruct (_ && _); [left; by eexists|].
  destruct (bool_decide (-1 < JS.indexOf normalizedItem _ _) && _);
    [left; by eexists|].
  destruct (bool_decide (1 < length queryWords)%nat && _); [left; by eexists|].
  destruct (bool_decide (-1 < JS.indexOf normalizedItem normalizedQuery 0)) eqn:Hcontains;
    [left; by eexists|].
  right. split_and!; [| |done].
  - intros ->. apply bool_decide_eq_false in Hprefix. apply Hprefix, prefix_nil.
  - apply bool_decide_eq_false in Hcontains. by rewrite <- contains_occurs.
Qed.

(** X6: the strategies form a ladder.  A result found with the strategy
    [off] is the result with every strategy, and a field that matches with
    the strategy [smart] matches with the strategy [aggressive]. *)
Theorem matchesFuzzily_strategy_ladder (item normalizedItem : list N)
    (itemWords : gset (list N)) (query normalizedQuery : list N)
    (queryWords : list (list N)) :
  (∀ r strategy,
     matchesFuzzily item normalizedItem itemWords query normalizedQuery queryWords off
     = Some r →
     matchesFuzzily item normalizedItem itemWords query normalizedQuery queryWords strategy
     = Some r)
  ∧ (is_Some (matchesFuzzily item normalizedItem itemWords query normalizedQuery
                             queryWords smart) →
     is_Some (matchesFuzzily item normalizedItem itemWords query normalizedQuery
                             queryWords aggressive)).
Proof.
  destruct (matchesFuzzily_tiers item normalizedItem itemWords query normalizedQuery
              queryWords) as [[r Hr]|(Hquery & _ & Hfuzzy)].
  - split.
    + intros r' strategy. rewrite !Hr. done.
    + intros _. rewrite Hr. by eexists.
  - split.
    + intros r strategy. by rewrite (Hfuzzy off).
    + rewrite (Hfuzzy smart), (Hfuzzy aggressive). intros Hsmart.
      unfold aggressiveFuzzyMatch.
      apply (aggressiveLoop_sublist _ _ _ 0 0 _ _ _ normalizedItem normalizedQuery);
        try done. split; [done|]. by apply smartFuzzyMatch_sublist.
Qed.

(** X7: a normalized query that occurs in the normalized item as a substring
    always matches, with the same result under every strategy; the fuzzy
    matchers are not consulted. *)
Theorem substring_always_matches (item normalizedItem : list N)
    (itemWords : gset (list N)) (query normalizedQuery : list N)
    (queryWords : list (list N)) :
  occursIn normalizedQuery normalizedItem →
  ∃ r, ∀ strategy,
    matchesFuzzily item normalizedItem itemWords query normalizedQuery queryWords strategy
    = Some r.
Proof.
  intros Hocc.
  by destruct (matchesFuzzily_tiers item normalizedItem itemWords query normalizedQuery
                 queryWords) as [Hexact|(_ & Hnot & _)].
Qed.

(** "nan" in "banana". *)
Lemma substring_always_matches_witness :
  ∃ r, ∀ strategy,
    matchesFuzzily (js "banana") (js "banana") {[ js "banana" ]}
                   (js "nan") (js "nan") [js "nan"] strategy
    = Some r.
Proof.
  apply (substring_always_matches (js "banana") (js "banana") {[ js "banana" ]}
                                  (js "nan") (js "nan") [js "nan"]).
  exists (js "ba"), (js "a"). reflexivity.
Defined.


(** ** Scores *)

Lemma tenths_le_inv (a b : Z) : (tenths a ≤ tenths b)%Qc → a ≤ b.
Proof.
  unfold Qcle, tenths. simpl. rewrite !Qred_correct. unfold Qle. simpl. lia.
Qed.

Lemma tenths_add (a b : Z) : (tenths a + tenths b)%Qc = tenths (a + b).
Proof.
  apply Qc_is_canon. unfold tenths. simpl.
  rewrite !Qred_correct. unfold Qeq, Qplus. simpl. lia.
Qed.

(** The penalties of a chunk list add up to a number of tenths between 2 and
    16 per chunk. *)
Lemma penalties_sum (isBoundary : option N → bool) (normalizedItem : list N)
    (indices : list (Z * Z)) :
  ∃ z, foldr Qcplus (tenths 0) (Spec.chunkPenalty isBoundary normalizedItem <$> indices)
       = tenths z
       ∧ 2 * Z.of_nat (length indices) ≤ z ≤ 16 * Z.of_nat (length indices).
Proof.
  induction indices as [|chunk indices (z & Hz & Hbounds)]; cbn [fmap list_fmap foldr].
  - exists 0. simpl. split; [done | lia].
  - rewrite Hz.
    assert (Hone : ∃ p, Spec.chunkPenalty isBoundary normalizedItem chunk = tenths p
                        ∧ 2 ≤ p ≤ 16).
    { unfold Spec.chunkPenalty. repeat case_match; eexists; (split; [done | lia]). }
    destruct Hone as (p & -> & Hp). exists (p + z). rewrite tenths_add.
    split; [done|]. cbn [length]. lia.
Qed.

Lemma highlighted_length (s : list N) (chunks : list (Z * Z)) :
  Forall (within s) chunks → (length chunks ≤ length (highlighted s chunks))%nat.
Proof.
  induction 1 as [|[a b] chunks (Ha & Hab & Hb) _ IH]; [done|]. simpl in Ha, Hab, Hb.
  change (highlighted s ((a, b) :: chunks))
    with (JS.slice s a (b + 1) ++ highlighted s chunks).
  pose proof (slice_length s a (b + 1) ltac:(lia) ltac:(lia) ltac:(lia)) as Hslice.
  unfold JS.len in Hslice. rewrite length_app. cbn [length]. lia.
Qed.

Lemma fuzzy_result_scored (strategy : FuzzySearchStrategy)
    (normalizedItem normalizedQuery : list N) (r : Qc * list (Z * Z)) :
  match strategy with
  | aggressive => aggressiveFuzzyMatch normalizedItem normalizedQuery
  | smart => smartFuzzyMatch normalizedItem normalizedQuery
  | off => None
  end = Some r →
  r = scoreConsecutiveLetters r.2 normalizedItem.
Proof.
  intros Hmatch. destruct strategy; [done | |].
  - pose proof (smartFuzzyMatch_loop normalizedItem normalizedQuery 0) as Hloop.
    rewrite Hmatch in Hloop. by apply smartLoop_scored in Hloop.
  - by apply aggressiveLoop_scored in Hmatch.
Qed.

Lemma fuzzy_result_marks (strategy : FuzzySearchStrategy)
    (normalizedItem normalizedQuery : list N) (sc : Qc) (chunks : list (Z * Z)) :
  normalizedQuery ≠ [] →
  match strategy with
  | aggressive => aggressiveFuzzyMatch normalizedItem normalizedQuery
  | smart => smartFuzzyMatch normalizedItem normalizedQuery
  | off => None
  end = Some (sc, chunks) →
  Forall (within normalizedItem) chunks
  ∧ highlighted normalizedItem chunks = normalizedQuery.
Proof.
  intros Hquery Hmatch.
  assert (Hlen : 0 ≤ 0 < JS.len normalizedQuery).
  { destruct normalizedQuery; [done|]. unfold JS.len. simpl. lia. }
  destruct strategy; [done | |].
  - pose proof (smartFuzzyMatch_loop normalizedItem normalizedQuery 0) as Hloop.
    rewrite Hmatch in Hloop.
    apply smartLoop_marks in Hloop as (_ & ? & ?);
      [done | done | constructor | constructor | constructor | done
      | right; right; constructor].
  - unfold aggressiveFuzzyMatch in Hmatch.
    by apply aggressiveLoop_marks in Hmatch as (_ & ? & ?);
      [| lia | unfold JS.len; lia | lia | by left].
Qed.

Lemma fuzzy_chunk_count (strategy : FuzzySearchStrategy)
    (normalizedItem normalizedQuery : list N) (sc : Qc) (chunks : list (Z * Z)) :
  normalizedQuery ≠ [] →
  match strategy with
  | aggressive => aggressiveFuzzyMatch normalizedItem normalizedQuery
  | smart => smartFuzzyMatch normalizedItem normalizedQuery
  | off => None
  end = Some (sc, chunks) →
  (1 ≤ length chunks ≤ length normalizedQuery)%nat.
Proof.
  intros Hquery Hmatch.
  destruct (fuzzy_result_marks _ _ _ _ _ Hquery Hmatch) as [Hwithin Htext].
  apply highlighted_length in Hwithin. rewrite Htext in Hwithin.
  split; [|done]. destruct chunks; [|simpl; lia].
  by destruct normalizedQuery.
Qed.

Lemma scored_bounds (indices : list (Z * Z)) (normalizedItem : list N) :
  (tenths (20 + 2 * Z.of_nat (length indices))
   ≤ (scoreConsecutiveLetters indices normalizedItem).1)%Qc
  ∧ ((scoreConsecutiveLetters indices normalizedItem).1
     ≤ tenths (20 + 16 * Z.of_nat (length indices)))%Qc.
Proof.
  rewrite scoreConsecutiveLetters_runScore. unfold Spec.runScore.
  destruct (penalties_sum Spec.isSpace normalizedItem indices) as (z & -> & Hz).
  rewrite tenths_add. split; apply tenths_le; lia.
Qed.

(** X9: a fuzzy result for a query that is not empty has at least one chunk
    and at most as many chunks as the query has characters, and its score
    lies between 2.0 + 0.2 and 2.0 + 1.6 per chunk; the score of a fuzzy
    match is therefore at least 2.2, above that of every substring match. *)
Theorem fuzzy_score_range (strategy : FuzzySearchStrategy)
    (normalizedItem normalizedQuery : list N) (sc : Qc) (chunks : list (Z * Z)) :
  normalizedQuery ≠ [] →
  match strategy with
  | aggressive => aggressiveFuzzyMatch normalizedItem normalizedQuery
  | smart => smartFuzzyMatch normalizedItem normalizedQuery
  | off => None
  end = Some (sc, chunks) →
  (1 ≤ length chunks ≤ length normalizedQuery)%nat
  ∧ (tenths (20 + 2 * Z.of_nat (length chunks)) ≤ sc)%Qc
  ∧ (sc ≤ tenths (20 + 16 * Z.of_nat (length chunks)))%Qc
  ∧ (tenths 22 ≤ sc)%Qc.
Proof.
  intros Hquery Hmatch.
  pose proof (fuzzy_chunk_count _ _ _ _ _ Hquery Hmatch) as Hcount.
  apply fuzzy_result_scored in Hmatch. cbn [snd] in Hmatch.
  destruct (scored_bounds chunks normalizedItem) as [Hlow Hhigh].
  rewrite <- Hmatch in Hlow, Hhigh. cbn [fst] in Hlow, Hhigh.
  split_and!; [lia | lia | done | done |].
  eapply Qcle_trans; [|exact Hlow]. apply tenths_le. lia.
Qed.

(** The smart match of "fooazqq" in "foobar bazqux qed": three chunks. *)
Lemma fuzzy_score_range_witness :
  (1 ≤ 3 ≤ 7)%nat
  ∧ (tenths (20 + 2 * 3) ≤ tenths 36)%Qc
  ∧ (tenths 36 ≤ tenths (20 + 16 * 3))%Qc
  ∧ (tenths 22 ≤ tenths 36)%Qc.
Proof.
  apply (fuzzy_score_range smart (js "foobar bazqux qed") (js "fooazqq") (tenths 36)
                           [(0, 2); (8, 10); (14, 14)]); [done | by_evaluation].
Defined.

(** The ways in which a call can end, with what each says about the score. *)
Lemma matchesFuzzily_score_cases (item normalizedItem : list N) (itemWords : gset (list N))
    (query normalizedQuery : list N) (queryWords : list (list N))
    (strategy : FuzzySearchStrategy) (r : Qc * list (Z * Z)) :
  matchesFuzzily item normalizedItem itemWords query normalizedQuery queryWords strategy
  = Some r →
  (item = query ∧ r.1 = tenths 0)
  ∨ (item ≠ query ∧ normalizedItem = normalizedQuery ∧ r.1 = tenths 1)
  ∨ (item ≠ query ∧ normalizedItem ≠ normalizedQuery
     ∧ normalizedQuery `prefix_of` normalizedItem ∧ r.1 = tenths 5)
  ∨ (item ≠ query ∧ normalizedItem ≠ normalizedQuery
     ∧ ¬ normalizedQuery `prefix_of` normalizedItem
     ∧ earlierTierApplies item normalizedItem query normalizedQuery
     ∧ (r.1 = tenths 9 ∨ r.1 = tenths 10))
  ∨ (item ≠ query ∧ normalizedItem ≠ normalizedQuery
     ∧ ¬ normalizedQuery `prefix_of` normalizedItem
     ∧ ¬ earlierTierApplies item normalizedItem query normalizedQuery
     ∧ (tenths 19 ≤ r.1)%Qc).
Proof.
  unfold matchesFuzzily, JS.startsWith.
  case_bool_decide as H1; [intros Hr; apply (inj Some) in Hr as <-; by left|].
  case_bool_decide as H2; [intros Hr; apply (inj Some) in Hr as <-; by right; left|].
  case_bool_decide as H3;
    [intros Hr; apply (inj Some) in Hr as <-; by right; right; left|].
  destruct (_ && _) eqn:H4.
  { intros Hr. apply (inj Some) in Hr as <-.
    apply andb_true_iff in H4 as [Hi Hb]. apply bool_decide_eq_true in Hi.
    right. right. right. left. split_and!; try done; [|by left].
    right. right. right. by left. }
  destruct (bool_decide (-1 < JS.indexOf normalizedItem _ _) && _) eqn:H5.
  { intros Hr. apply (inj Some) in Hr as <-.
    apply andb_true_iff in H5 as [Hi Hb]. apply bool_decide_eq_true in Hi.
    right. right. right. left. split_and!; try done; [|by right].
    right. right. right. by right. }
  intros Hr. do 4 right.
  assert (Hnone : ¬ earlierTierApplies item normalizedItem query normalizedQuery).
  { unfold earlierTierApplies. intros [?|[?|[?|[[Hi Hb]|[Hi Hb]]]]]; try done.
    - by rewrite (bool_decide_eq_true_2 _ Hi), Hb in H4.
    - by rewrite (bool_decide_eq_true_2 _ Hi), Hb in H5. }
  split_and!; try done. revert Hr.
  destruct (bool_decide (1 < length queryWords)%nat && _) eqn:H6.
  { intros Hr. apply (inj Some) in Hr as <-. cbn [fst].
    apply andb_true_iff in H6 as [Hn _]. apply bool_decide_eq_true in Hn.
    rewrite multi_word_number. apply tenths_le. lia. }
  destruct (bool_decide (-1 < JS.indexOf normalizedItem normalizedQuery 0)).
  { intros Hr. apply (inj Some) in Hr as <-. by apply tenths_le. }
  intros Hfuzzy. apply fuzzy_score_least in Hfuzzy.
  eapply Qcle_trans; [|exact Hfuzzy]. by apply tenths_le.
Qed.

(** X10: the score tells which of the exact tiers matched.  In every result
    the score is 0 exactly when item and query are the same string, 0.1
    exactly when they differ but have the same normal form, 0.5 exactly when
    the normalized query is a proper prefix of the normalized item, and at
    most 1 exactly when one of the five tiers before the multi-word tier
    applies; every other result scores 1.9 or more. *)
Theorem score_tells_tier (item normalizedItem : list N) (itemWords : gset (list N))
    (query normalizedQuery : list N) (queryWords : list (list N))
    (strategy : FuzzySearchStrategy) (sc : Qc) (ranges : list (Z * Z)) :
  matchesFuzzily item normalizedItem itemWords query normalizedQuery queryWords strategy
  = Some (sc, ranges) →
  (sc = tenths 0 ↔ item = query)
  ∧ (sc = tenths 1 ↔ item ≠ query ∧ normalizedItem = normalizedQuery)
  ∧ (sc = tenths 5 ↔ item ≠ query ∧ normalizedItem ≠ normalizedQuery
                     ∧ normalizedQuery `prefix_of` normalizedItem)
  ∧ ((sc ≤ tenths 10)%Qc ↔ earlierTierApplies item normalizedItem query normalizedQuery)
  ∧ ((sc ≤ tenths 10)%Qc ∨ (tenths 19 ≤ sc)%Qc).
Proof.
  intros Hmatch. apply matchesFuzzily_score_cases in Hmatch. cbn [fst] in Hmatch.
  assert (Hno : ∀ a b, a ≠ b → tenths a ≠ tenths b)
    by (intros a b Hab Heq; by apply tenths_inj in Heq).
  assert (Hlow : ∀ a b, b < a → (tenths a ≤ sc)%Qc → sc ≠ tenths b).
  { intros a b Hab Hle ->. apply tenths_le_inv in Hle. lia. }
  assert (Hhigh : ∀ a b, b < a → (tenths a ≤ sc)%Qc → ¬ (sc ≤ tenths b)%Qc).
  { intros a b Hab Hle Hle'. pose proof (Qcle_trans _ _ _ Hle Hle') as Hcontra.
    apply tenths_le_inv in Hcontra. lia. }
  destruct Hmatch as [[Heq ->]|[(Hne & Heq & ->)|[(Hne & Hne' & Hpre & ->)
    |[(Hne & Hne' & Hpre & Hearly & Hsc)|(Hne & Hne' & Hpre & Hearly & Hsc)]]]].
  - split_and!; [done | | | |].
    + split; [by intros ?%Hno | by intros []].
    + split; [by intros ?%Hno | by intros []].
    + split; [by left | intros _; by apply tenths_le].
    + left. by apply tenths_le.
  - split_and!; [| done | | |].
    + split; [by intros ?%Hno | done].
    + split; [by intros ?%Hno | by intros (_ & ? & _)].
    + split; [right; by left | intros _; by apply tenths_le].
    + left. by apply tenths_le.
  - split_and!; [| | done | |].
    + split; [by intros ?%Hno | done].
    + split; [by intros ?%Hno | by intros []].
    + split; [right; right; by left | intros _; by apply tenths_le].
    + left. by apply tenths_le.
  - assert (Hle : (sc ≤ tenths 10)%Qc) by (destruct Hsc as [->| ->]; by apply tenths_le).
    split_and!; [| | | done | by left].
    + split; [destruct Hsc as [->| ->]; by intros ?%Hno | done].
    + split; [destruct Hsc as [->| ->]; by intros ?%Hno | by intros []].
    + split; [destruct Hsc as [->| ->]; by intros ?%Hno | by intros (_ & _ & ?)].
  - split_and!; [| | | | by right].
    + split; [by intros ?%(Hlow 19 0) | done].
    + split; [by intros ?%(Hlow 19 1) | by intros []].
    + split; [by intros ?%(Hlow 19 5) | by intros (_ & _ & ?)].
    + split; [by intros ?%(Hhigh 19 10) | done].
Qed.

(** "ban" against "banana": a proper prefix. *)
Lemma score_tells_tier_witness :
  (tenths 5 = tenths 0 ↔ js "banana" = js "ban")
  ∧ (tenths 5 = tenths 1 ↔ js "banana" ≠ js "ban" ∧ js "banana" = js "ban")
  ∧ (tenths 5 = tenths 5 ↔ js "banana" ≠ js "ban" ∧ js "banana" ≠ js "ban"
                           ∧ js "ban" `prefix_of` js "banana")
  ∧ ((tenths 5 ≤ tenths 10)%Qc
     ↔ earlierTierApplies (js "banana") (js "banana") (js "ban") (js "ban"))
  ∧ ((tenths 5 ≤ tenths 10)%Qc ∨ (tenths 19 ≤ tenths 5)%Qc).
Proof.
  apply (score_tells_tier (js "banana") (js "banana") {[ js "banana" ]}
                          (js "ban") (js "ban") [js "ban"] smart (tenths 5) [(0, 2)]).
  by_evaluation.
Defined.

(** ** The normalizer *)






(** X12: whatever the runtime does for lowercasing and decomposition, a
    normalized text holds no combining mark of U+0300..U+036F, no U+0142
    and no U+00F1, and has no white space at either end: trimming it again
    changes nothing. *)
Theorem normalizeText_clean `{Unicode} (str : list N) :
  Forall (λ c, ¬ (0x300 ≤ c ∧ c ≤ 0x36F)%N ∧ c ≠ 0x142%N ∧ c ≠ 0xF1%N) (normalizeText str)
  ∧ JS.trim (normalizeText str) = normalizeText str
  ∧ startsClean (normalizeText str)
  ∧ startsClean (reverse (normalizeText str)).
Proof.
  unfold normalizeText.
  set (t := JS.removeRange 0x300 0x36F (normalizeNFD (toLowerCase str))).
  split_and!.
  - apply trim_Forall. rewrite !Forall_and. split_and!.
    + do 2 (apply replaceAll_Forall; [lia|]). apply removeRange_Forall.
    + apply replaceAll_Forall; [done|]. by apply replaceAll_gone.
    + by apply replaceAll_gone.
  - apply trim_idempotent.
  - unfold JS.trim. eapply startsClean_prefix; [apply trimEnd_prefix | apply trimStart_clean].
  - unfold JS.trim, JS.trimEnd. rewrite reverse_involutive. apply trimStart_clean.
Qed.

(** ** Texts that are missing or empty *)

Lemma normalizeText_nil `{Unicode} :
  toLowerCase [] = [] → normalizeNFD [] = [] → normalizeText [] = [].
Proof. intros Hlower Hnfd. unfold normalizeText. by rewrite Hlower, Hnfd. Qed.

Lemma normalizeText_startsClean `{Unicode} (str : list N) : startsClean (normalizeText str).
Proof.
  unfold normalizeText, JS.trim.
  eapply startsClean_prefix; [apply trimEnd_prefix | apply trimStart_clean].
Qed.

(** The first word of a text that does not start with the separator is not
    empty. *)
Lemma split_head (sep c : N) (s : list N) :
  c ≠ sep → ∃ w ws, JS.split sep (c :: s) = (c :: w) :: ws.
Proof.
  intros Hc. cbn [JS.split]. rewrite bool_decide_eq_false_2 by done.
  destruct (JS.split sep s) as [|w ws]; by eexists _, _.
Qed.

Lemma indexOf_nil (pat : list N) (position : Z) : pat ≠ [] → JS.indexOf [] pat position = -1.
Proof.
  intros Hpat.
  destruct (indexOf_found [] pat position Hpat) as [?|(_ & Hge & Hle & _)]; [done|].
  destruct pat; [done|]. unfold JS.len in Hle. simpl in Hle. lia.
Qed.

(** X13: a field whose text is missing or empty never matches.  On a runtime
    that lowercases and decomposes the empty string to itself, the empty
    item against a query with a normal form that is not empty gives no
    result, under every strategy. *)
Theorem empty_text_never_matches `{Unicode} (query : list N)
    (strategy : FuzzySearchStrategy) :
  toLowerCase [] = [] → normalizeNFD [] = [] →
  normalizeText query ≠ [] →
  matchesFuzzily [] (normalizeText []) (list_to_set (JS.split space (normalizeText [])))
                 query (normalizeText query) (JS.split space (normalizeText query))
                 strategy
  = None.
Proof.
  intros Hlower Hnfd Hquery. rewrite (normalizeText_nil Hlower Hnfd).
  assert (Hraw : query ≠ []) by (intros ->; by rewrite normalizeText_nil in Hquery).
  pose proof (normalizeText_startsClean query) as Hclean.
  destruct (normalizeText query) as [|c normalizedQuery] eqn:Hnq; [done|].
  unfold matchesFuzzily, JS.startsWith.
  rewrite bool_decide_eq_false_2 by done.
  rewrite bool_decide_eq_false_2 by done.
  rewrite bool_decide_eq_false_2 by (by intros ?%prefix_nil_inv).
  rewrite !indexOf_nil by done. cbn [bool_decide andb].
  rewrite (bool_decide_eq_false_2 (-1 < -1)) by lia. cbn [andb].
  assert (Hwords : forallb (λ w, bool_decide (w ∈ (list_to_set (JS.split space []) : gset (list N))))
                     (JS.split space (c :: normalizedQuery)) = false).
  { destruct (split_head space c normalizedQuery) as (w & ws & ->).
    - intros ->. by vm_compute in Hclean.
    - cbn [forallb]. rewrite bool_decide_eq_false_2; [done|].
      intros Hin%elem_of_list_to_set. by apply list_elem_of_singleton in Hin. }
  rewrite Hwords, andb_false_r.
  destruct strategy; [done | |]; apply eq_None_not_Some; intros Hmatch.
  - apply smartFuzzyMatch_sublist in Hmatch; [|done]. by apply sublist_nil_r in Hmatch.
  - unfold aggressiveFuzzyMatch in Hmatch. by destruct Hmatch.
Qed.

(** The query "a" under [ucd]. *)
Lemma empty_text_never_matches_witness :
  matchesFuzzily [] (@normalizeText ucd [])
                 (list_to_set (JS.split space (@normalizeText ucd [])))
                 (js "a") (@normalizeText ucd (js "a"))
                 (JS.split space (@normalizeText ucd (js "a"))) smart
  = None.
Proof.
  apply (@empty_text_never_matches ucd (js "a") smart); [done | done | by vm_compute].
Defined.

(** ** The collection search *)

Lemma Math_min_l (a b : Qc) : (Math_min a b ≤ a)%Qc.
Proof.
  unfold Math_min. case_bool_decide as Hab; [apply Qcle_refl|].
  by apply Qclt_le_weak, Qcnot_le_lt.
Qed.

Lemma Math_min_r (a b : Qc) : (Math_min a b ≤ b)%Qc.
Proof. unfold Math_min. case_bool_decide as Hab; [done | apply Qcle_refl]. Qed.

Lemma matchFields_fold (strat : FuzzySearchStrategy) (query normalizedQuery : list N)
    (queryWords : list (list N)) (texts : list Field) (acc : Qc * FuzzyMatches) :
  fold_left
    (λ (acc : Qc * FuzzyMatches) (f : Field),
       let '(item, normalizedItem, itemWords) := f in
       match matchesFuzzily item normalizedItem itemWords query normalizedQuery
                            queryWords strat with
       | Some result => (Math_min acc.1 result.1, acc.2 ++ [Some result.2])
       | None => (acc.1, acc.2 ++ [None])
       end)
    texts acc
  = (bestOver strat query normalizedQuery queryWords texts acc.1,
     acc.2 ++ ((λ f, snd <$> fieldMatch strat query normalizedQuery queryWords f) <$> texts)).
Proof.
  revert acc. induction texts as [|[[i n] w] texts IH]; intros [best matches].
  - cbn [fold_left bestOver fmap list_fmap fst snd]. by rewrite app_nil_r.
  - cbn [fold_left fmap list_fmap]. rewrite IH. unfold bestOver, fieldMatch.
    cbn [fold_left fst snd].
    destruct (matchesFuzzily i n w query normalizedQuery queryWords strat) as [r|];
      cbn [fst snd fmap option_fmap option_map]; by rewrite <- app_assoc.
Qed.

Lemma matchFields_spec (strat : FuzzySearchStrategy) (query normalizedQuery : list N)
    (queryWords : list (list N)) (texts : list Field) :
  matchFields strat query normalizedQuery queryWords texts
  = (bestOver strat query normalizedQuery queryWords texts MAX_SAFE_INTEGER,
     (λ f, snd <$> fieldMatch strat query normalizedQuery queryWords f) <$> texts).
Proof. unfold matchFields. by rewrite matchFields_fold. Qed.

Lemma bestOver_cons (strat : FuzzySearchStrategy) (query normalizedQuery : list N)
    (queryWords : list (list N)) (f : Field) (texts : list Field) (best : Qc) :
  bestOver strat query normalizedQuery queryWords (f :: texts) best
  = bestOver strat query normalizedQuery queryWords texts
      (match fieldMatch strat query normalizedQuery queryWords f with
       | Some r => Math_min best r.1
       | None => best
       end).
Proof. done. Qed.

Lemma bestOver_le (strat : FuzzySearchStrategy) (query normalizedQuery : list N)
    (queryWords : list (list N)) (texts : list Field) (best : Qc) :
  (bestOver strat query normalizedQuery queryWords texts best ≤ best)%Qc.
Proof.
  revert best. induction texts as [|f texts IH]; intros best; [apply Qcle_refl|].
  rewrite bestOver_cons.
  destruct (fieldMatch _ _ _ _ f) as [r|]; [|apply IH].
  eapply Qcle_trans; [apply IH | apply Math_min_l].
Qed.

Lemma bestOver_least (strat : FuzzySearchStrategy) (query normalizedQuery : list N)
    (queryWords : list (list N)) (texts : list Field) (best : Qc) (f : Field)
    (r : Qc * HighlightRanges) :
  f ∈ texts → fieldMatch strat query normalizedQuery queryWords f = Some r →
  (bestOver strat query normalizedQuery queryWords texts best ≤ r.1)%Qc.
Proof.
  revert best. induction texts as [|g texts IH]; intros best Hin Hf; [by inv Hin|].
  rewrite bestOver_cons.
  apply elem_of_cons in Hin as [<-|Hin].
  - rewrite Hf. eapply Qcle_trans; [apply bestOver_le | apply Math_min_r].
  - by apply IH.
Qed.

Lemma bestOver_attained (strat : FuzzySearchStrategy) (query normalizedQuery : list N)
    (queryWords : list (list N)) (texts : list Field) (best : Qc) :
  bestOver strat query normalizedQuery queryWords texts best = best
  ∨ ∃ f r, f ∈ texts ∧ fieldMatch strat query normalizedQuery queryWords f = Some r
           ∧ bestOver strat query normalizedQuery queryWords texts best = r.1.
Proof.
  revert best. induction texts as [|g texts IH]; intros best; [by left|].
  rewrite bestOver_cons.
  destruct (fieldMatch _ _ _ _ g) as [r|] eqn:Hg.
  - destruct (IH (Math_min best r.1)) as [Hsame|(f & r' & Hin & Hf & Hbest)].
    + rewrite Hsame. unfold Math_min. case_bool_decide; [by left|].
      right. exists g, r. split_and!; [left | done | done].
    + right. exists f, r'. split_and!; [by right | done | done].
  - destruct (IH best) as [?|(f & r' & Hin & Hf & Hbest)]; [by left|].
    right. exists f, r'. split_and!; [by right | done | done].
Qed.

Lemma collect_fold {T : Type} (strat : FuzzySearchStrategy) (query normalizedQuery : list N)
    (queryWords : list (list N)) (preprocessed : list (T * list Field))
    (results : list (FuzzyResult T)) :
  fold_left
    (λ results '(element, texts),
       let '(bestScore, matches) :=
         matchFields strat query normalizedQuery queryWords texts in
       if bool_decide (bestScore < MAX_SAFE_INTEGER)%Qc
       then results ++ [mkResult element bestScore matches]
       else results)
    preprocessed results
  = results ++ omap (resultOf strat query normalizedQuery queryWords) preprocessed.
Proof.
  revert results. induction preprocessed as [|[element texts] preprocessed IH];
    intros results; cbn [fold_left omap list_omap]; [by rewrite app_nil_r|].
  rewrite IH. unfold resultOf at 2. cbn [fst snd].
  destruct (matchFields strat query normalizedQuery queryWords texts) as [bestScore matches].
  case_bool_decide; [by rewrite <- app_assoc | done].
Qed.

Lemma collect_spec {T : Type} (strat : FuzzySearchStrategy) (query normalizedQuery : list N)
    (queryWords : list (list N)) (preprocessed : list (T * list Field)) :
  collect strat query normalizedQuery queryWords preprocessed
  = omap (resultOf strat query normalizedQuery queryWords) preprocessed.
Proof. unfold collect. by rewrite collect_fold. Qed.

Lemma preprocess_elements `{Unicode} {T : Type} `{Element T}
    (options : FuzzySearchOptions T) (collection : list T) :
  (preprocess options collection).*1 = collection.
Proof.
  unfold preprocess. rewrite <- list_fmap_compose. apply list_fmap_id.
Qed.

(** The search function on a query with a normal form that is not empty. *)
Lemma createFuzzySearch_spec `{Unicode} {T : Type} `{Element T} (collection : list T)
    (options : FuzzySearchOptions T) (query : list N) :
  normalizeText query ≠ [] →
  createFuzzySearch collection options query
  = JS.sort (λ a b, bool_decide (0 < sortByScore a b)%Qc)
      (omap (resultOf (default smart (strategy options)) query (normalizeText query)
                      (JS.split space (normalizeText query)))
            (preprocess options collection)).
Proof.
  intros Hquery. unfold createFuzzySearch.
  rewrite bool_decide_eq_false_2; [by rewrite collect_spec|].
  destruct (normalizeText query); [done|]. unfold JS.len. simpl. lia.
Qed.

Lemma createFuzzySearch_elem `{Unicode} {T : Type} `{Element T} (collection : list T)
    (options : FuzzySearchOptions T) (query : list N) (r : FuzzyResult T) :
  r ∈ createFuzzySearch collection options query →
  ∃ entry, entry ∈ preprocess options collection
           ∧ resultOf (default smart (strategy options)) query (normalizeText query)
                      (JS.split space (normalizeText query)) entry = Some r.
Proof.
  unfold createFuzzySearch. case_bool_decide; [by intros ?%elem_of_nil|].
  rewrite sort_perm, collect_spec. by intros ?%list_elem_of_omap.
Qed.

(** X14: every result of a collection search stands for an element of the
    collection: its [matches] list has one entry per text field of the
    element, in field order, the ranges of the field's match or null; at
    least one field matches; and its score is the least score among the
    fields that match. *)
Theorem createFuzzySearch_results `{Unicode} {T : Type} `{Element T} (collection : list T)
    (options : FuzzySearchOptions T) (query : list N) (r : FuzzyResult T) :
  r ∈ createFuzzySearch collection options query →
  ∃ fields,
    (item r, fields) ∈ preprocess options collection
    ∧ item r ∈ collection
    ∧ length fields = length (textsOf options (item r))
    ∧ matches r = (λ f, snd <$> queryMatch options query f) <$> fields
    ∧ (∃ f res, f ∈ fields ∧ queryMatch options query f = Some res ∧ score r = res.1)
    ∧ (∀ f res, f ∈ fields → queryMatch options query f = Some res → (score r ≤ res.1)%Qc).
Proof.
  intros Hr. apply createFuzzySearch_elem in Hr as ([element fields] & Hentry & Hresult).
  unfold resultOf in Hresult. rewrite matchFields_spec in Hresult. cbn [fst snd] in Hresult.
  destruct (bool_decide _) eqn:Hbest in Hresult; [|done].
  apply bool_decide_eq_true in Hbest. apply (inj Some) in Hresult as <-. cbn [item score matches].
  exists fields. split_and!; [done | | | done | |].
  - rewrite <- (preprocess_elements options collection).
    apply list_elem_of_fmap. by exists (element, fields).
  - unfold preprocess in Hentry. apply list_elem_of_fmap in Hentry as (e & [= -> ->] & _).
    by rewrite length_fmap.
  - destruct (bestOver_attained (default smart (strategy options)) query (normalizeText query)
                (JS.split space (normalizeText query)) fields MAX_SAFE_INTEGER)
      as [Hsame|Hfield]; [|done].
    rewrite Hsame in Hbest. apply Qclt_not_le in Hbest. destruct Hbest. apply Qcle_refl.
  - intros f res. apply bestOver_least.
Qed.

(** Banana among two fruits, under [ucd]. *)
Lemma createFuzzySearch_results_witness :
  ∃ fields,
    (js "banana", fields) ∈ @preprocess ucd _ _ noOptions [js "apple"; js "banana"]
    ∧ js "banana" ∈ [js "apple"; js "banana"]
    ∧ length fields = length (textsOf noOptions (js "banana"))
    ∧ [Some [(0, 2)]] = (λ f, snd <$> @queryMatch ucd (list N) noOptions (js "ban") f) <$> fields
    ∧ (∃ f res, f ∈ fields ∧ @queryMatch ucd (list N) noOptions (js "ban") f = Some res
                ∧ tenths 5 = res.1)
    ∧ (∀ f res, f ∈ fields → @queryMatch ucd (list N) noOptions (js "ban") f = Some res →
                (tenths 5 ≤ res.1)%Qc).
Proof.
  apply (@createFuzzySearch_results ucd _ _ [js "apple"; js "banana"] noOptions (js "ban")
           (mkResult (js "banana") (tenths 5) [Some [(0, 2)]])).
  replace (@createFuzzySearch ucd _ _ [js "apple"; js "banana"] noOptions (js "ban"))
    with [mkResult (js "banana") (tenths 5) [Some [(0, 2)]]] by by_evaluation.
  apply list_elem_of_here.
Defined.






(** ** Scores stay below [MAX_SAFE_INTEGER] *)

Lemma split_length (sep : N) (s : list N) : (length (JS.split sep s) ≤ length s + 1)%nat.
Proof.
  induction s as [|c s IH]; cbn [JS.split length]; [lia|].
  case_bool_decide; cbn [length]; [lia|].
  destruct (JS.split sep s); cbn [length] in *; lia.
Qed.

Lemma tenths_lt_MAX (k : Z) : k < 10 * (2 ^ 53 - 1) → (tenths k < MAX_SAFE_INTEGER)%Qc.
Proof.
  intros Hk. unfold Qclt, tenths, MAX_SAFE_INTEGER. simpl.
  rewrite !Qred_correct. unfold Qlt, inject_Z. simpl. lia.
Qed.

Lemma matchesFuzzily_score_most (item normalizedItem : list N) (itemWords : gset (list N))
    (query normalizedQuery : list N) (queryWords : list (list N))
    (strategy : FuzzySearchStrategy) (r : Qc * list (Z * Z)) :
  matchesFuzzily item normalizedItem itemWords query normalizedQuery queryWords strategy
  = Some r →
  (r.1 ≤ tenths (20 + 16 * JS.len normalizedQuery + 2 * Z.of_nat (length queryWords)))%Qc.
Proof.
  pose proof (len_nonneg normalizedQuery) as Hlen.
  unfold matchesFuzzily, JS.startsWith.
  case_bool_decide as H1; [intros Hr; apply (inj Some) in Hr as <-; apply tenths_le; lia|].
  case_bool_decide as H2; [intros Hr; apply (inj Some) in Hr as <-; apply tenths_le; lia|].
  case_bool_decide as H3; [intros Hr; apply (inj Some) in Hr as <-; apply tenths_le; lia|].
  destruct (_ && _); [intros Hr; apply (inj Some) in Hr as <-; apply tenths_le; lia|].
  destruct (bool_decide (-1 < JS.indexOf normalizedItem _ _) && _);
    [intros Hr; apply (inj Some) in Hr as <-; apply tenths_le; lia|].
  destruct (bool_decide (1 < length queryWords)%nat && _).
  { intros Hr. apply (inj Some) in Hr as <-. cbn [fst].
    rewrite multi_word_number. apply tenths_le. lia. }
  destruct (bool_decide (-1 < JS.indexOf normalizedItem normalizedQuery 0));
    [intros Hr; apply (inj Some) in Hr as <-; apply tenths_le; lia|].
  intros Hfuzzy. destruct r as [sc chunks].
  assert (Hquery : normalizedQuery ≠ []) by (intros ->; apply H3, prefix_nil).
  pose proof (fuzzy_chunk_count _ _ _ _ _ Hquery Hfuzzy) as Hcount.
  apply fuzzy_result_scored in Hfuzzy. cbn [snd] in Hfuzzy.
  destruct (scored_bounds chunks normalizedItem) as [_ Hhigh].
  rewrite <- Hfuzzy in Hhigh. cbn [fst] in *.
  eapply Qcle_trans; [exact Hhigh|]. apply tenths_le. unfold JS.len in *. lia.
Qed.

Lemma queryMatch_below_MAX `{Unicode} {T : Type} (options : FuzzySearchOptions T)
    (query : list N) (f : Field) (res : Qc * HighlightRanges) :
  searchable query → queryMatch options query f = Some res →
  (res.1 < MAX_SAFE_INTEGER)%Qc.
Proof.
  intros [_ Hshort] Hmatch. apply matchesFuzzily_score_most in Hmatch.
  eapply Qcle_lt_trans; [exact Hmatch|]. apply tenths_lt_MAX.
  pose proof (split_length space (normalizeText query)) as Hwords.
  unfold JS.len in *. lia.
Qed.

(** X16: a search leaves no matching element out.  For a query whose normal
    form is not empty (and shorter than 2^52 units), every element of the
    collection with at least one matching text field stands in the results. *)
Theorem createFuzzySearch_complete `{Unicode} {T : Type} `{Element T} (collection : list T)
    (options : FuzzySearchOptions T) (query : list N) (element : T) (fields : list Field) :
  searchable query →
  (element, fields) ∈ preprocess options collection →
  (∃ f, f ∈ fields ∧ is_Some (queryMatch options query f)) →
  ∃ r, r ∈ createFuzzySearch collection options query ∧ item r = element.
Proof.
  intros Hquery Hentry (f & Hf & [res Hres]).
  rewrite createFuzzySearch_spec by apply Hquery.
  set (best := bestOver (default smart (strategy options)) query (normalizeText query)
                        (JS.split space (normalizeText query)) fields MAX_SAFE_INTEGER).
  exists (mkResult element best
            ((λ f, snd <$> queryMatch options query f) <$> fields)).
  split; [|done]. rewrite sort_perm. apply list_elem_of_omap.
  exists (element, fields). split; [done|].
  unfold resultOf. rewrite matchFields_spec. cbn [fst snd]. fold best.
  rewrite bool_decide_eq_true_2; [done|].
  eapply Qcle_lt_trans; [by eapply bestOver_least|].
  by eapply queryMatch_below_MAX.
Qed.

(** Banana among two fruits, under [ucd]. *)
Lemma createFuzzySearch_complete_witness :
  ∃ r, r ∈ @createFuzzySearch ucd _ _ [js "apple"; js "banana"] noOptions (js "ban")
       ∧ item r = js "banana".
Proof.
  apply (@createFuzzySearch_complete ucd _ _ [js "apple"; js "banana"] noOptions (js "ban")
           (js "banana")
           [(js "banana", js "banana", list_to_set [js "banana"])]).
  - split; [by vm_compute | by vm_compute].
  - apply list_elem_of_further, list_elem_of_here.
  - eexists. split; [apply list_elem_of_here|]. vm_compute. eauto.
Defined.

(** X17: the one-off matcher is the collection search on a collection of one
    string.  For a query whose normal form is not empty (and shorter than
    2^52 units), the search over the single text with default options
    returns the result of [fuzzyMatch], or nothing when that is null. *)
Theorem fuzzyMatch_is_single_search `{Unicode} (text query : list N) :
  searchable query →
  createFuzzySearch [text] noOptions query = option_list (fuzzyMatch text query).
Proof.
  intros Hquery. rewrite createFuzzySearch_spec by apply Hquery.
  unfold preprocess, textsOf, fuzzyMatch.
  cbn [getText key strategy noOptions fmap list_fmap default selfText string_element
       omap list_omap].
  unfold resultOf. rewrite matchFields_spec. unfold bestOver, fieldMatch.
  cbn [fold_left fmap list_fmap fst snd].
  destruct (matchesFuzzily _ _ _ _ _ _ _) as [res|] eqn:Hres.
  - assert (Hbelow : (res.1 < MAX_SAFE_INTEGER)%Qc)
      by exact (queryMatch_below_MAX (T := list N) noOptions query
                  (text, normalizeText text, list_to_set (JS.split space (normalizeText text)))
                  res Hquery Hres).
    unfold Math_min. rewrite (bool_decide_eq_false_2 (MAX_SAFE_INTEGER ≤ res.1)%Qc)
      by by apply Qclt_not_le.
    by rewrite bool_decide_eq_true_2.
  - rewrite bool_decide_eq_false_2; [done|].
    apply Qcle_not_lt, Qcle_refl.
Qed.

(** "ban" against "banana", under [ucd]. *)
Lemma fuzzyMatch_is_single_search_witness :
  @createFuzzySearch ucd _ _ [js "banana"] noOptions (js "ban")
  = option_list (@fuzzyMatch ucd (js "banana") (js "ban")).
Proof.
  apply (@fuzzyMatch_is_single_search ucd (js "banana") (js "ban")).
  split; [by vm_compute | by vm_compute].
Defined.

(** ** Blank queries *)

(** X18: on a query whose normal form is empty (an empty or blank query) the
    two entry points differ: the collection search returns no result at all,
    while [fuzzyMatch] returns a result for every text, with a score of at
    most 0.5 and, unless text and query are the same string, the single
    range [0, -1]. *)
Theorem blank_query `{Unicode} {T : Type} `{Element T} (collection : list T)
    (options : FuzzySearchOptions T) (text query : list N) :
  normalizeText query = [] →
  createFuzzySearch collection options query = []
  ∧ ∃ sc ranges,
      fuzzyMatch text query = Some (mkResult text sc [Some ranges])
      ∧ (sc ≤ tenths 5)%Qc
      ∧ (text ≠ query → ranges = [(0, -1)]).
Proof.
  intros Hquery. split.
  { unfold createFuzzySearch. by rewrite Hquery. }
  unfold fuzzyMatch, matchesFuzzily, JS.startsWith. rewrite Hquery.
  case_bool_decide as H1.
  { eexists _, _. split_and!; [done | by apply tenths_le | done]. }
  case_bool_decide as H2.
  { eexists _, _. split_and!; [done | by apply tenths_le | by rewrite H2]. }
  rewrite bool_decide_eq_true_2 by apply prefix_nil.
  eexists _, _. split_and!; [done | by apply tenths_le | done].
Qed.

(** Two spaces as the query, under [ucd]. *)
Lemma blank_query_witness :
  @createFuzzySearch ucd _ _ [js "banana"] noOptions (js "  ") = []
  ∧ ∃ sc ranges,
      @fuzzyMatch ucd (js "banana") (js "  ") = Some (mkResult (js "banana") sc [Some ranges])
      ∧ (sc ≤ tenths 5)%Qc
      ∧ (js "banana" ≠ js "  " → ranges = [(0, -1)]).
Proof.
  apply (@blank_query ucd _ _ [js "banana"] noOptions (js "banana") (js "  ")).
  by vm_compute.
Defined.

(** ** The ranges of the multi-word tier *)

Lemma split_first (sep : N) (s : list N) :
  ∃ w ws, JS.split sep s = w :: ws ∧ w `prefix_of` s.
Proof.
  induction s as [|c s (w & ws & Hsplit & Hprefix)]; cbn [JS.split].
  - by exists [], [].
  - case_bool_decide; [exists [], (JS.split sep s); split; [done | apply prefix_nil]|].
    rewrite Hsplit. exists (c :: w), ws. split; [done | by apply prefix_cons].
Qed.

(** Every word of a text occurs in the text. *)
Lemma split_occurs (sep : N) (s w : list N) : w ∈ JS.split sep s → occursIn w s.
Proof.
  revert w. induction s as [|c s IH]; intros w; cbn [JS.split].
  - intros ->%list_elem_of_singleton. by exists [], [].
  - assert (Hlater : occursIn w s → occursIn w (c :: s)).
    { intros (l1 & l2 & ->). by exists (c :: l1), l2. }
    case_bool_decide.
    + intros [->|Hw]%elem_of_cons; [by exists [], (c :: s) | by apply Hlater, IH].
    + destruct (split_first sep s) as (w0 & ws & Hsplit & [rest ->]).
      rewrite Hsplit in IH |- *.
      intros [->|Hw]%elem_of_cons; [by exists [], rest|].
      apply Hlater, IH. by right.
Qed.

Lemma indexOf_marks (s w : list N) :
  occursIn w s →
  0 ≤ JS.indexOf s w 0
  ∧ JS.indexOf s w 0 + JS.len w ≤ JS.len s
  ∧ JS.slice s (JS.indexOf s w 0) (JS.indexOf s w 0 + JS.len w) = w.
Proof.
  intros Hocc. pose proof (len_nonneg s) as Hlen.
  destruct w as [|c w].
  { assert (Hzero : JS.indexOf s [] 0 = 0).
    { unfold JS.indexOf. rewrite Z.max_l, Z.min_l by lia. simpl.
      by destruct s. }
    rewrite Hzero. change (JS.len []) with 0. by rewrite slice_empty. }
  apply indexOf_occurs in Hocc.
  destruct (indexOf_found s (c :: w) 0) as [?|(_ & Hge & Hle & [rest Hrest])]; [done | done |].
  split_and!; [done | done |].
  rewrite slice_within by (pose proof (len_nonneg (c :: w)); lia).
  rewrite Hrest. replace (Z.to_nat _) with (length (c :: w)) by (unfold JS.len; lia).
  by rewrite take_app_length.
Qed.

(** X19: when every query word is a word of the normalized item, each range
    of the multi-word tier lies inside the item and marks the first place
    where one of the query words occurs in it as a substring, which need not
    be where it stands as a word; the range of an empty word is [0, -1]. *)
Theorem multi_word_ranges_mark_words (normalizedItem : list N) (queryWords : list (list N)) :
  (∀ w, w ∈ queryWords →
        w ∈ (list_to_set (JS.split space normalizedItem) : gset (list N))) →
  Forall (λ r, ∃ w, w ∈ queryWords
                    ∧ r = (JS.indexOf normalizedItem w 0,
                           JS.indexOf normalizedItem w 0 + JS.len w - 1)
                    ∧ 0 ≤ r.1 ∧ r.2 < JS.len normalizedItem
                    ∧ JS.slice normalizedItem r.1 (r.2 + 1) = w)
         (multiWordRanges normalizedItem queryWords).
Proof.
  intros Hwords. unfold multiWordRanges. rewrite sort_perm.
  apply Forall_fmap, Forall_forall. intros w Hw. exists w.
  specialize (Hwords w Hw). apply elem_of_list_to_set, split_occurs in Hwords.
  destruct (indexOf_marks normalizedItem w Hwords) as (Hge & Hle & Hslice).
  cbn [fst snd]. split_and!; [done | done | done | lia |].
  by replace (JS.indexOf normalizedItem w 0 + JS.len w - 1 + 1)
    with (JS.indexOf normalizedItem w 0 + JS.len w) by lia.
Qed.

(** "bar foo" against "foobar bar foo": "bar" is marked inside "foobar". *)
Lemma multi_word_ranges_mark_words_witness :
  Forall (λ r, ∃ w, w ∈ [js "bar"; js "foo"]
                    ∧ r = (JS.indexOf (js "foobar bar foo") w 0,
                           JS.indexOf (js "foobar bar foo") w 0 + JS.len w - 1)
                    ∧ 0 ≤ r.1 ∧ r.2 < JS.len (js "foobar bar foo")
                    ∧ JS.slice (js "foobar bar foo") r.1 (r.2 + 1) = w)
         (multiWordRanges (js "foobar bar foo") [js "bar"; js "foo"]).
Proof.
  apply (multi_word_ranges_mark_words (js "foobar bar foo") [js "bar"; js "foo"]).
  intros w Hw. apply elem_of_list_to_set.
  apply elem_of_cons in Hw as [->|Hw]; [by vm_compute; right; left|].
  apply list_elem_of_singleton in Hw as ->. by vm_compute; right; right; left.
Defined.

Example multi_word_range_inside_word :
  multiWordRanges (js "foobar bar foo") [js "bar"; js "foo"] = [(0, 2); (3, 5)].
Proof. by vm_compute. Qed.

(** ** The range of the substring tiers *)

(** X20: in a result of score 1 or 2 the single range starts where the
    normalized query first occurs in the normalized item, but its width is
    the length of the query as written, not of its normal form: the range
    marks the occurrence exactly only when the two lengths agree, and can
    otherwise run past the end of the item. *)
Theorem contains_range_width (item normalizedItem : list N) (itemWords : gset (list N))
    (query normalizedQuery : list N) (queryWords : list (list N))
    (strategy : FuzzySearchStrategy) (sc : Qc) (ranges : list (Z * Z)) :
  matchesFuzzily item normalizedItem itemWords query normalizedQuery queryWords strategy
  = Some (sc, ranges) →
  sc = tenths 10 ∨ sc = tenths 20 →
  ranges = [(JS.indexOf normalizedItem normalizedQuery 0,
             JS.indexOf normalizedItem normalizedQuery 0 + JS.len query - 1)]
  ∧ 0 ≤ JS.indexOf normalizedItem normalizedQuery 0
  ∧ JS.indexOf normalizedItem normalizedQuery 0 + JS.len normalizedQuery
    ≤ JS.len normalizedItem
  ∧ JS.slice normalizedItem (JS.indexOf normalizedItem normalizedQuery 0)
             (JS.indexOf normalizedItem normalizedQuery 0 + JS.len normalizedQuery)
    = normalizedQuery.
Proof.
  assert (Hno : ∀ a b, a ≠ b → tenths a ≠ tenths b)
    by (intros a b Hab Heq; by apply tenths_inj in Heq).
  unfold matchesFuzzily, JS.startsWith.
  case_bool_decide as H1;
    [intros Hr [Hsc|Hsc]; apply (inj Some) in Hr; apply pair_equal_spec in Hr as [<- _];
     by apply Hno in Hsc|].
  case_bool_decide as H2;
    [intros Hr [Hsc|Hsc]; apply (inj Some) in Hr; apply pair_equal_spec in Hr as [<- _];
     by apply Hno in Hsc|].
  case_bool_decide as H3;
    [intros Hr [Hsc|Hsc]; apply (inj Some) in Hr; apply pair_equal_spec in Hr as [<- _];
     by apply Hno in Hsc|].
  destruct (_ && _);
    [intros Hr [Hsc|Hsc]; apply (inj Some) in Hr; apply pair_equal_spec in Hr as [<- _];
     by apply Hno in Hsc|].
  destruct (bool_decide (-1 < JS.indexOf normalizedItem _ _) && _) eqn:H5.
  { intros Hr _. apply (inj Some) in Hr. apply pair_equal_spec in Hr as [_ <-].
    apply andb_true_iff in H5 as [Hi _]. apply bool_decide_eq_true, contains_occurs in Hi.
    split; [done | by apply indexOf_marks]. }
  destruct (bool_decide (1 < length queryWords)%nat && _) eqn:H6.
  { intros Hr Hsc. apply (inj Some) in Hr. apply pair_equal_spec in Hr as [<- _].
    apply andb_true_iff in H6 as [Hn _]. apply bool_decide_eq_true in Hn.
    rewrite multi_word_number in Hsc.
    destruct Hsc as [Hsc|Hsc]; apply tenths_inj in Hsc; lia. }
  destruct (bool_decide (-1 < JS.indexOf normalizedItem normalizedQuery 0)) eqn:H7.
  { intros Hr _. apply (inj Some) in Hr. apply pair_equal_spec in Hr as [_ <-].
    apply bool_decide_eq_true, contains_occurs in H7.
    split; [done | by apply indexOf_marks]. }
  intros Hfuzzy Hsc.
  assert (Hquery : normalizedQuery ≠ []) by (intros ->; apply H3, prefix_nil).
  pose proof (fuzzy_chunk_count _ _ _ _ _ Hquery Hfuzzy) as Hcount.
  apply fuzzy_result_scored in Hfuzzy. cbn [snd] in Hfuzzy.
  destruct (scored_bounds ranges normalizedItem) as [Hlow _].
  rewrite <- Hfuzzy in Hlow. cbn [fst] in Hlow.
  destruct Hsc as [->| ->]; apply tenths_le_inv in Hlow; lia.
Qed.

(** The query " ab " against "xab": the range [1, 4] in an item of three
    characters. *)
Lemma contains_range_width_witness :
  [(1, 4)] = [(JS.indexOf (js "xab") (js "ab") 0,
               JS.indexOf (js "xab") (js "ab") 0 + JS.len (js " ab ") - 1)]
  ∧ 0 ≤ JS.indexOf (js "xab") (js "ab") 0
  ∧ JS.indexOf (js "xab") (js "ab") 0 + JS.len (js "ab") ≤ JS.len (js "xab")
  ∧ JS.slice (js "xab") (JS.indexOf (js "xab") (js "ab") 0)
             (JS.indexOf (js "xab") (js "ab") 0 + JS.len (js "ab"))
    = js "ab".
Proof.
  apply (contains_range_width (js "xab") (js "xab") {[ js "xab" ]}
                              (js " ab ") (js "ab") [js "ab"] smart (tenths 20) [(1, 4)]);
    [by_evaluation | by right].
Defined.

Example range_past_the_end :
  @fuzzyMatch ucd (js "xab") (js " ab ")
  = Some (mkResult (js "xab") (tenths 20) [Some [(1, 4)]])
  ∧ JS.len (js "xab") = 3.
Proof. split; [by_evaluation | done]. Qed.
